(** * refnerf-pl: image metrics and visual diagnostics

    A shallow embedding of [internal/image.py] and [internal/vis.py].

    Numbers.  The Python code computes on float32 tensors.  Everything
    that only needs field operations and comparisons is embedded over the
    exact rationals [Q] (no rounding, no NaN, no infinities); functions
    that take fractional powers ([linear_to_srgb], [srgb_to_linear]) are
    embedded over the reals [R].  Results over [Q] are compared with
    [Qeq] ([==]), lifted to lists by [Forall2].

    Tensors.  A tensor is its shape together with its elements in
    row-major order, which is how a contiguous torch tensor is laid out:
    [reshape] keeps the elements and replaces the shape. *)

From Stdlib Require Import List Arith ZArith QArith Qround Qabs Qminmax Lia Psatz Bool.
From Stdlib Require Import Sorting.Permutation Sorting.Sorted.
From Stdlib Require Import Reals.
From Stdlib Require String Ascii DecimalString DecimalNat DecimalFacts Decimal.
Import ListNotations.

Set Implicit Arguments.

(** ** Errors *)

(** The exceptions the embedded functions can raise.  [ValueError] is what
    the code raises on a shape mismatch; [RuntimeError] stands for the
    errors torch itself raises (division of an integer tensor by zero,
    shapes that do not broadcast, an ambiguous reshape). *)
Inductive error : Type :=
  | ValueError
  | TypeError
  | IndexError
  | RuntimeError
  | AssertionError.

Inductive result (A : Type) : Type :=
  | Ok (a : A)
  | Err (e : error).

Arguments Ok {A} a.
Arguments Err {A} e.

Definition bind {A B : Type} (r : result A) (k : A -> result B) : result B :=
  match r with
  | Ok a => k a
  | Err e => Err e
  end.

Notation "x <- e ;; k" := (bind e (fun x => k))
  (at level 61, e at next level, right associativity).
Notation "' p <- e ;; k" := (bind e (fun p => k))
  (at level 61, p pattern, e at next level, right associativity).

(** ** Tensors *)

Record tensor : Type := mkTensor { shape : list nat; data : list Q }.

Definition numel (sh : list nat) : nat := fold_right Nat.mul 1%nat sh.

Definition wf_tensor (t : tensor) : Prop := length (data t) = numel (shape t).

(** Pointwise rational equality of element lists and of tensors. *)
Definition Qlist_eq : list Q -> list Q -> Prop := Forall2 Qeq.

Definition tensor_eq (a b : tensor) : Prop :=
  shape a = shape b /\ Qlist_eq (data a) (data b).

(** [torch.finfo(torch.float32).eps], that is 2^-23. *)
Definition float32_eps : Q := 1 # 8388608.

(** ** Array primitives used by [weighted_percentile] *)

(** [torch.argsort]: the indices that sort [x] ascending.  torch leaves
    the order of equal keys open; the model is the stable choice. *)
Fixpoint insert_idx (key : nat -> Q) (i : nat) (l : list nat) : list nat :=
  match l with
  | [] => [i]
  | j :: l' =>
      if Qle_bool (key i) (key j) then i :: j :: l'
      else j :: insert_idx key i l'
  end.

Definition argsort (x : list Q) : list nat :=
  fold_right (insert_idx (fun i => nth i x 0)) [] (seq 0 (length x)).

(** The order [argsort] sorts the indices by. *)
Definition key_le (key : nat -> Q) (i j : nat) : Prop := key i <= key j.

(** [t[idx]] for an index tensor: out of range raises. *)
Fixpoint gather (t : list Q) (idx : list nat) : result (list Q) :=
  match idx with
  | [] => Ok []
  | i :: idx' =>
      match nth_error t i with
      | Some v => r <- gather t idx' ;; Ok (v :: r)
      | None => Err IndexError
      end
  end.

(** [torch.remainder] of an integer tensor by a Python int: torch raises
    on a zero divisor as soon as there is an element to divide. *)
Definition remainder (idx : list nat) (m : nat) : result (list nat) :=
  match idx, m with
  | [], _ => Ok []
  | _ :: _, O => Err RuntimeError
  | _ :: _, S _ => Ok (map (fun i => i mod m)%nat idx)
  end.

(** [torch.cumsum(weight, dim=0)]. *)
Fixpoint cumsum_from (acc : Q) (l : list Q) : list Q :=
  match l with
  | [] => []
  | w :: l' => (acc + w) :: cumsum_from (acc + w) l'
  end.

Definition cumsum (l : list Q) : list Q := cumsum_from 0 l.

(** [t[-1]]. *)
Definition last_elem (l : list Q) : result Q :=
  match rev l with
  | [] => Err IndexError
  | v :: _ => Ok v
  end.

(** Modelled from the spec: [math.interp] (module [internal/math.py] is not
    among the sources).  Section 4.2 step 4: linear interpolation of the
    query against the curve [(xp, fp)], clamped to the end points outside
    [[xp[0], xp[N-1]]].  [interp_seg t x0 f0 xp fp] is called with
    [x0 < t]: it walks right while the next knot is not beyond [t]. *)
Fixpoint interp_seg (t x0 f0 : Q) (xp fp : list Q) : Q :=
  match xp, fp with
  | x1 :: xp', f1 :: fp' =>
      if Qle_bool x1 t then interp_seg t x1 f1 xp' fp'
      else f0 + (t - x0) * (f1 - f0) / (x1 - x0)
  | _, _ => f0
  end.

Definition interp1 (t : Q) (xp fp : list Q) : result Q :=
  match xp, fp with
  | x0 :: xp', f0 :: fp' =>
      if Qle_bool t x0 then Ok f0 else Ok (interp_seg t x0 f0 xp' fp')
  | _, _ => Err ValueError
  end.

Fixpoint interp (ts xp fp : list Q) : result (list Q) :=
  match ts with
  | [] => Ok []
  | t :: ts' =>
      v <- interp1 t xp fp ;;
      r <- interp ts' xp fp ;;
      Ok (v :: r)
  end.

(** ** [weighted_percentile] (vis.py) *)

(** The body of [if not assume_sorted:].  The right-hand side of the tuple
    assignment is evaluated before either name is rebound, so
    [len(weight)] is the length of the weights as they were passed in. *)
Definition sort_and_permute (x weight : list Q) : result (list Q * list Q) :=
  let sortidx := argsort x in
  x' <- gather x sortidx ;;
  widx <- remainder sortidx (length weight) ;;
  weight' <- gather weight widx ;;
  Ok (x', weight').

Definition weighted_percentile
    (x weight : tensor) (ps : list Q) (assume_sorted : bool)
    : result (list Q) :=
  let x := data x in
  let weight := data weight in
  '(x, weight) <-
    (if assume_sorted then Ok (x, weight) else sort_and_permute x weight) ;;
  let acc_w := cumsum weight in
  total <- last_elem acc_w ;;
  interp (map (fun p => p * total / 100) ps) acc_w x.

(** A one-dimensional tensor. *)
Definition vec (l : list Q) : tensor := mkTensor [length l] l.

Definition zero_to_nine : list Q := [0; 1; 2; 3; 4; 5; 6; 7; 8; 9].

(** ** [matte] (vis.py) *)

(** [torch.arange(n) % (2 * width) // width]; [%] and [//] associate to the
    left.  Integer tensors: a zero divisor raises. *)
Definition stripe (n width : nat) : result (list nat) :=
  match n, width with
  | S _, O => Err RuntimeError
  | _, _ => Ok (map (fun i => (i mod (2 * width)) / width)%nat (seq 0 n))
  end.

(** [torch.logical_xor(a[:, None], b[None, :])], row-major: an integer is
    true when it is not zero. *)
Definition outer_xor (a b : list nat) : list bool :=
  flat_map (fun u => map (fun v => xorb (negb (u =? 0)%nat) (negb (v =? 0)%nat)) b) a.

(** [rgb * alpha[..., None] + (bg * (1 - alpha))[..., None]] on row-major
    data, [c] channels per pixel. *)
Fixpoint over (c : nat) (rgb alpha bg : list Q) : list Q :=
  match alpha, bg with
  | a :: alpha', b :: bg' =>
      map (fun v => v * a + b * (1 - a)) (firstn c rgb)
        ++ over c (skipn c rgb) alpha' bg'
  | _, _ => []
  end.

(** The checkerboard [bg] of [matte] for an [h] by [w] image. *)
Definition checkerboard (h w : nat) (dark light : Q) (width : nat)
    : result (list Q) :=
  rs <- stripe h width ;;
  cs <- stripe w width ;;
  let bg_mask := outer_xor rs cs in
  Ok (map (fun m : bool => if m then light else dark) bg_mask).

(** [matte(vis, acc, dark, light, width)].  The embedding covers [acc] of
    shape [[h; w]] and [vis] of shape [[h; w; c]], which is how every caller
    in vis.py uses it; [acc.shape[1]] raises on a smaller rank, and other
    shape combinations are rejected here as not broadcastable. *)
Definition matte (vis acc : tensor) (dark light : Q) (width : nat)
    : result tensor :=
  match shape acc with
  | [h; w] =>
      bg <- checkerboard h w dark light width ;;
      match shape vis with
      | [h'; w'; c] =>
          if ((h' =? h) && (w' =? w))%nat
          then Ok (mkTensor [h; w; c] (over c (data vis) (data acc) bg))
          else Err RuntimeError
      | _ => Err RuntimeError
      end
  | [] | [_] => Err IndexError
  | _ => Err RuntimeError
  end.

(** The value [bg] has at pixel [(r, col)]: light where the parities of
    the tile indices [r // width] and [col // width] differ, dark where
    they agree ([checkerboard_ok] below). *)
Definition checker_value (dark light : Q) (width r col : nat) : Q :=
  if xorb ((r / width) mod 2 =? 1)%nat ((col / width) mod 2 =? 1)%nat
  then light else dark.

Definition matte_dark : Q := 8 # 10.
Definition matte_light : Q := 1.
Definition matte_width : nat := 8.

(** ** [visualize_cmap] (vis.py) *)

(** Python truthiness of an optional scalar: [None] and zero are false. *)
Definition truthy (q : option Q) : bool :=
  match q with
  | Some v => negb (Qeq_bool v 0)
  | None => false
  end.

(** [a or b] for an optional scalar [a]. *)
Definition py_or (a : option Q) (b : Q) : Q :=
  match a with
  | Some v => if truthy a then v else b
  | None => b
  end.

(** [torch.mod(a, b)], read as the remainder with the sign of the divisor,
    [a - floor(a / b) * b], which is what [jnp.mod] (where this line was
    ported from) and [torch.remainder] compute. *)
Definition torch_mod (a b : Q) : Q := a - inject_Z (Qfloor (a / b)) * b.

Definition clip (v lo hi : Q) : Q := Qmin (Qmax v lo) hi.

Definition Qlt_bool (a b : Q) : bool := negb (Qle_bool b a).

(** [nan_to_num(clip((v - min(lo, hi)) / abs(hi - lo), 0, 1))].  With a
    zero denominator the float quotient is +inf, -inf or NaN, which [clip]
    and [nan_to_num] send to 1, 0 and 0. *)
Definition normalize (lo hi v : Q) : Q :=
  let num := v - Qmin lo hi in
  let den := Qabs (hi - lo) in
  if Qeq_bool den 0 then (if Qlt_bool 0 num then 1 else 0)
  else clip (num / den) 0 1.

(** [colormap(value)[:, :, :3]]: a matplotlib colormap sends each scalar to
    RGBA; the alpha channel is dropped.  The slice needs a result of rank
    3 at least; the embedding covers a rank-2 [value]. *)
Definition apply_colormap (cmap : Q -> list Q) (sh : list nat) (value : list Q)
    : result tensor :=
  match sh with
  | [h; w] => Ok (mkTensor [h; w; 3%nat] (flat_map (fun v => firstn 3 (cmap v)) value))
  | [] | [_] => Err IndexError
  | _ => Err RuntimeError
  end.

(** The [else] branch of [if colormap:].  The message of the second
    [ValueError] calls [len] on an integer, so building it raises
    [TypeError] first. *)
Definition check_three_channels (sh : list nat) (value : list Q) : result tensor :=
  if negb (length sh =? 3)%nat then Err ValueError
  else if negb (last sh 0 =? 3)%nat then Err TypeError
  else Ok (mkTensor sh value).

Definition visualize_cmap
    (value weight : tensor) (colormap : option (Q -> list Q))
    (lo hi : option Q) (percentile : Q) (curve_fn : Q -> Q)
    (modulus : option Q) (matte_background : bool) : result tensor :=
  bounds <- weighted_percentile value weight
              [50 - percentile / 2; 50 + percentile / 2] false ;;
  match bounds with
  | [lo_auto; hi_auto] =>
      let eps := float32_eps in
      let lo := py_or lo (lo_auto - eps) in
      let hi := py_or hi (hi_auto + eps) in
      let v := map curve_fn (data value) in
      let lo := curve_fn lo in
      let hi := curve_fn hi in
      let v :=
        match modulus with
        | Some m =>
            if truthy modulus then map (fun x => torch_mod x m / m) v
            else map (normalize lo hi) v
        | None => map (normalize lo hi) v
        end in
      colorized <-
        match colormap with
        | Some cmap => apply_colormap cmap (shape value) v
        | None => check_three_channels (shape value) v
        end ;;
      if matte_background
      then matte colorized weight matte_dark matte_light matte_width
      else Ok colorized
  | _ => Err ValueError
  end.

(** ** [visualize_rays] (vis.py), from the stacked arrays on

    The loops of [visualize_rays] resample every ray with
    [stepfun.resample] (module [internal/stepfun.py] is not among the
    sources) and stack the results into [vis_rgb], of shape
    [[rays; levels; resolution; channels]], and [vis_alpha], of shape
    [[rays; levels; resolution]].  The embedding starts from these two
    arrays, with [renormalize] off, and follows the code from the tiling
    test to the return. *)

(** [chunks blk n l]: the first [n] consecutive blocks of [blk] elements. *)
Fixpoint chunks (blk n : nat) (l : list Q) : list (list Q) :=
  match n with
  | O => []
  | S n' => firstn blk l :: chunks blk n' (skipn blk l)
  end.

(** The shape of [t.reshape((-1,) + rest)] for [n] elements: torch refuses
    to infer the free dimension when [rest] has no elements or does not
    divide [n]. *)
Definition reshape_infer (n : nat) (rest : list nat) : result (list nat) :=
  let m := numel rest in
  if (m =? 0)%nat then Err RuntimeError
  else if (n mod m =? 0)%nat then Ok ((n / m)%nat :: rest)
  else Err RuntimeError.

(** [torch.tile] along dimension 2 of an array whose blocks under the
    first two dimensions have [blk] elements. *)
Definition tile_blocks (blk rep nblocks : nat) (l : list Q) : list Q :=
  flat_map (fun b => concat (repeat b rep)) (chunks blk nblocks l).

(** [torch.cat([t, zeros_like(t[:, :1])], dim=1)] for groups of [grp]
    elements and a strip of [blk] zeros after each. *)
Definition pad_groups (grp blk ngroups : nat) (l : list Q) : list Q :=
  flat_map (fun g => g ++ repeat 0 blk) (chunks grp ngroups l).

(** The tiling branch for one array: tile, flatten the leading dimensions,
    regroup by [stride], append the strip, flatten again. *)
Definition tile_and_pad (rep stride : nat) (t : tensor) : result tensor :=
  match shape t with
  | d0 :: d1 :: d2 :: rest =>
      let blk := numel (d2 :: rest) in
      let tiled := tile_blocks blk rep (d0 * d1) (data t) in
      sh1 <- reshape_infer (length tiled) (d2 :: rest) ;;
      sh2 <- reshape_infer (length tiled) (stride :: tl sh1) ;;
      let padded := pad_groups (stride * blk) blk (hd 0%nat sh2) tiled in
      sh3 <- reshape_infer (length padded) (d2 :: rest) ;;
      Ok (mkTensor sh3 padded)
  | _ => Err RuntimeError
  end.

(** [vis_rgb * vis_alpha[..., None] + (bg_color * (1 - vis_alpha))[..., None]],
    for [vis_rgb] of the shape of [vis_alpha] followed by the channels. *)
Definition composite_rays (vis_rgb vis_alpha : tensor) (bg_color : Q)
    : result tensor :=
  match rev (shape vis_rgb) with
  | c :: lead =>
      if list_eq_dec Nat.eq_dec (rev lead) (shape vis_alpha)
      then Ok (mkTensor (shape vis_rgb)
                 (over c (data vis_rgb) (data vis_alpha)
                    (map (fun _ => bg_color) (data vis_alpha))))
      else Err RuntimeError
  | [] => Err RuntimeError
  end.

(** [t[:-1]]. *)
Definition drop_last_row (t : tensor) : result tensor :=
  match shape t with
  | d0 :: rest =>
      Ok (mkTensor ((d0 - 1)%nat :: rest)
            (firstn ((d0 - 1) * numel rest) (data t)))
  | [] => Err IndexError
  end.

Definition visualize_rays
    (vis_rgb vis_alpha : tensor) (resolution : nat) (bg_color : Q)
    : result (tensor * tensor) :=
  match shape vis_rgb with
  | d0 :: d1 :: _ =>
      '(vis_rgb, vis_alpha) <-
        (if (d0 <? resolution)%nat then
           let rep := (resolution / (d0 * d1 + 1))%nat in
           let stride := (rep * d1)%nat in
           rgb' <- tile_and_pad rep stride vis_rgb ;;
           alpha' <- tile_and_pad rep stride vis_alpha ;;
           Ok (rgb', alpha')
         else Ok (vis_rgb, vis_alpha)) ;;
      vis <- composite_rays vis_rgb vis_alpha bg_color ;;
      vis <- drop_last_row vis ;;
      vis_alpha <- drop_last_row vis_alpha ;;
      Ok (vis, vis_alpha)
  | _ => Err IndexError
  end.

(** ** [color_correct] (image.py) *)

Definition matrix : Type := list (list Q).

(** [t.shape[-1]]. *)
Definition last_dim (t : tensor) : result nat :=
  match rev (shape t) with
  | c :: _ => Ok c
  | [] => Err IndexError
  end.

(** [t.reshape([-1, c])] as a list of rows. *)
Definition reshape_rows (t : tensor) (c : nat) : result matrix :=
  sh <- reshape_infer (length (data t)) [c] ;;
  Ok (chunks c (hd 0%nat sh) (data t)).

Definition column {A : Type} (d : A) (c : nat) (m : list (list A)) : list A :=
  map (fun row => nth c row d) m.

(** [is_unclipped = lambda z: (z >= eps) & (z <= (1 - eps))]. *)
Definition is_unclipped (eps z : Q) : bool :=
  Qle_bool eps z && Qle_bool z (1 - eps).

(** One row of [a_mat]: for each channel [c] the products
    [row[c] * row[c:]], then the row itself, then the bias 1. *)
Definition feature_row (row : list Q) : list Q :=
  flat_map (fun c => map (Qmult (nth c row 0)) (skipn c row))
           (seq 0 (length row))
    ++ row ++ [1].

Definition num_features (c : nat) : nat := length (feature_row (repeat 0 c)).

Fixpoint map2 {A B C : Type} (f : A -> B -> C) (xs : list A) (ys : list B)
    : list C :=
  match xs, ys with
  | x :: xs', y :: ys' => f x y :: map2 f xs' ys'
  | _, _ => []
  end.

(** Elementwise binary operation on one axis under torch's broadcasting:
    equal sizes, or one of them of size 1. *)
Definition broadcast2 {A B C : Type} (f : A -> B -> C)
    (xs : list A) (ys : list B) : result (list C) :=
  if (length xs =? length ys)%nat then Ok (map2 f xs ys)
  else
    match xs, ys with
    | [x], _ => Ok (map (f x) ys)
    | _, [y] => Ok (map (fun x => f x y) xs)
    | _, _ => Err RuntimeError
    end.

Definition dot (a w : list Q) : Q := fold_right Qplus 0 (map2 Qmult a w).

Definition matvec (a : matrix) (w : list Q) : list Q :=
  map (fun row => dot row w) a.

(** The sum of the squared differences of two vectors, and the squared
    residual that a least-squares solve minimises. *)
Definition sumsq (us bs : list Q) : Q :=
  fold_right Qplus 0 (map2 (fun u v => (u - v) * (u - v)) us bs).

Definition residual (a : matrix) (w b : list Q) : Q := sumsq (matvec a w) b.

(** The predicates of the claims: a value that [clip(., 0, 1)] leaves
    alone, and a value that [is_unclipped] accepts. *)
Definition in_unit (v : Q) : Prop := 0 <= v /\ v <= 1.

Definition unclipped (eps v : Q) : Prop := eps <= v /\ v <= 1 - eps.

Fixpoint mapM {A B : Type} (f : A -> result B) (l : list A) : result (list B) :=
  match l with
  | [] => Ok []
  | x :: l' => y <- f x ;; r <- mapM f l' ;; Ok (y :: r)
  end.

Section ColorCorrect.

(** [torch.linalg.lstsq(a, b)[0]]: the solver is a collaborator, taken
    as a parameter.  Over the rationals its result is always finite, so
    [assert torch.all(torch.isfinite(w))] cannot fail. *)
Variable lstsq : matrix -> list Q -> list Q.

Variable eps : Q.

(** The body of the inner [for c in range(num_channels)]. *)
Definition solve_channel
    (a_mat : matrix) (mask0 : list (list bool)) (img_mat ref_mat : matrix)
    (c : nat) : result (list Q) :=
  let b := column 0 c ref_mat in
  m <- broadcast2 andb (column false c mask0)
         (map (is_unclipped eps) (column 0 c img_mat)) ;;
  mask <- broadcast2 andb m (map (is_unclipped eps) b) ;;
  ma_mat <- broadcast2
              (fun (k : bool) (row : list Q) =>
                 if k then row else map (fun _ => 0) row)
              mask a_mat ;;
  mb <- broadcast2 (fun (k : bool) (v : Q) => if k then v else 0) mask b ;;
  Ok (lstsq ma_mat mb).

(** The body of the outer [for _ in range(num_iters)].  [torch.stack] and
    [torch.matmul] need every solution to have one entry per column of
    [a_mat]. *)
Definition correct_once
    (num_channels : nat) (mask0 : list (list bool)) (ref_mat img_mat : matrix)
    : result matrix :=
  let a_mat := map feature_row img_mat in
  warp <- mapM (solve_channel a_mat mask0 img_mat ref_mat)
            (seq 0 num_channels) ;;
  if forallb (fun w => (length w =? num_features num_channels)%nat) warp
  then Ok (map (fun arow => map (fun w => clip (dot arow w) 0 1) warp) a_mat)
  else Err RuntimeError.

Fixpoint correct_loop
    (num_iters num_channels : nat) (mask0 : list (list bool))
    (ref_mat img_mat : matrix) : result matrix :=
  match num_iters with
  | O => Ok img_mat
  | S n =>
      img_mat' <- correct_once num_channels mask0 ref_mat img_mat ;;
      correct_loop n num_channels mask0 ref_mat img_mat'
  end.

Definition color_correct (img ref : tensor) (num_iters : nat)
    : result tensor :=
  ci <- last_dim img ;;
  cr <- last_dim ref ;;
  if negb (ci =? cr)%nat then Err ValueError
  else
    let num_channels := ci in
    img_mat <- reshape_rows img num_channels ;;
    ref_mat <- reshape_rows ref num_channels ;;
    let mask0 := map (map (is_unclipped eps)) img_mat in
    img_mat <- correct_loop num_iters num_channels mask0 ref_mat img_mat ;;
    Ok (mkTensor (shape img) (concat img_mat)).

End ColorCorrect.

(** The default [eps = 0.5 / 255] of [color_correct]. *)
Definition color_correct_eps : Q := 1 # 510.

(** ** [linear_to_srgb] and [srgb_to_linear] (image.py)

    Both functions act elementwise; the embedding is the function of one
    element, over the reals.  The power is taken of [max(eps, .)] in a
    branch that is only selected for a positive argument, so [Rpower]
    (defined for a positive base) is the power the code computes. *)
Module ColorSpace.

Local Open Scope R_scope.

(** [torch.finfo(torch.float32).eps], the default of [eps]. *)
Definition default_eps : R := / 2 ^ 23.

Definition linear_to_srgb (eps linear : R) : R :=
  let srgb0 := 323 / 25 * linear in
  let srgb1 := (211 * Rpower (Rmax eps linear) (5 / 12) - 11) / 200 in
  if Rle_dec linear 0.0031308 then srgb0 else srgb1.

Definition srgb_to_linear (eps srgb : R) : R :=
  let linear0 := 25 / 323 * srgb in
  let linear1 := Rpower (Rmax eps ((200 * srgb + 11) / 211)) (12 / 5) in
  if Rle_dec srgb 0.04045 then linear0 else linear1.

(** The linear value whose power-branch encoding is the threshold
    0.04045 of [srgb_to_linear]; it is a little above 0.0031308. *)
Definition knee : R := Rpower ((200 * 0.04045 + 11) / 211) (12 / 5).

End ColorSpace.

(** ** The metric conversions (image.py) and [sinebow] (vis.py), over the
    reals *)
Module Metrics.

Local Open Scope R_scope.

(** [-10. / torch.log(torch.tensor(10.)) * torch.log(mse)]. *)
Definition mse_to_psnr (mse : R) : R := - 10 / ln 10 * ln mse.

(** [torch.exp(-0.1 * torch.log(torch.tensor(10.)) * psnr)]. *)
Definition psnr_to_mse (psnr : R) : R := exp (- (1 / 10) * ln 10 * psnr).

Definition ssim_to_dssim (ssim : R) : R := (1 - ssim) / 2.

Definition dssim_to_ssim (dssim : R) : R := 1 - 2 * dssim.

(** [sinebow(h)]: the inner [f(x) = sin(pi * x) ** 2] and the three
    channels stacked on the last axis, for one element [h]. *)
Definition sinebow_f (x : R) : R := sin (PI * x) ^ 2.

Definition sinebow (h : R) : list R :=
  [sinebow_f (3 / 6 - h); sinebow_f (5 / 6 - h); sinebow_f (7 / 6 - h)].

End Metrics.

(** ** [downsample] (image.py) *)

(** [downsample] computes on Python integers before it touches the
    tensor, so it can raise [ZeroDivisionError] besides the errors above. *)
Inductive py_result (A : Type) : Type :=
  | Returns (a : A)
  | Raises (e : error)
  | RaisesZeroDivision.

Arguments Returns {A} a.
Arguments Raises {A} e.
Arguments RaisesZeroDivision {A}.

(** The mean of the [f] by [f] block of pixel [(i, j)], channel position
    [c], of an image with rows of [w] pixels and [k] elements per pixel:
    [img.reshape(h // f, f, w // f, f, ...).mean((1, 3))] at [(i, j, c)]. *)
Definition block_mean (f w k : nat) (d : list Q) (i j c : nat) : Q :=
  fold_right Qplus 0
    (flat_map
       (fun a => map (fun b => nth (((i * f + a) * w + (j * f + b)) * k + c) d 0)
                     (seq 0 f))
       (seq 0 f))
  / inject_Z (Z.of_nat (f * f)).

Definition downsample_data (f h w k : nat) (d : list Q) : list Q :=
  flat_map
    (fun i => flat_map (fun j => map (block_mean f w k d i j) (seq 0 k))
                       (seq 0 (w / f)))
    (seq 0 (h / f)).

(** [downsample(img, factor)].  The test is
    [sh[0] % factor == 0 and sh[1] % factor == 0], left to right with the
    short circuit of [and]; [%] and [//] are Python's, with the sign of the
    divisor.  A negative factor that passes the test asks [reshape] for
    negative dimensions, which torch refuses. *)
Definition downsample (img : tensor) (factor : Z) : py_result tensor :=
  match shape img with
  | [] => Raises IndexError
  | h :: sh1 =>
      if (factor =? 0)%Z then RaisesZeroDivision
      else if negb (Z.of_nat h mod factor =? 0)%Z then Raises ValueError
      else
        match sh1 with
        | [] => Raises IndexError
        | w :: rest =>
            if negb (Z.of_nat w mod factor =? 0)%Z then Raises ValueError
            else if (factor <? 0)%Z then Raises RuntimeError
            else
              let f := Z.to_nat factor in
              Returns (mkTensor ((h / f)%nat :: (w / f)%nat :: rest)
                         (downsample_data f h w (numel rest) (data img)))
        end
  end.

(** ** [visualize_coord_mod] (vis.py) *)

(** [((coords + 1) % 2) / 2] on a tensor: [%] is [torch.remainder]. *)
Definition coord_cell (x : Q) : Q := torch_mod (x + 1) 2 / 2.

Definition visualize_coord_mod (coords acc : tensor) : result tensor :=
  matte (mkTensor (shape coords) (map coord_cell (data coords))) acc
    matte_dark matte_light matte_width.

(** [between lo hi v]: [v] lies in the closed interval [[lo, hi]]. *)
Definition between (lo hi v : Q) : Prop := lo <= v /\ v <= hi.

(** ** Frame file names of [create_videos] (vis.py) *)

Module VideoNames.
Import String Ascii.
Local Open Scope string_scope.

(** [str(n)] for a non-negative integer: its decimal digits, no sign and
    no leading zero. *)
Definition py_str (n : nat) : string :=
  DecimalString.NilZero.string_of_uint (Nat.to_uint n).

(** [str(z)] for any integer: a negative one gets a leading minus sign. *)
Definition py_str_int (z : Z) : string :=
  match z with
  | Zneg p => String "-" (py_str (Pos.to_nat p))
  | _ => py_str (Z.to_nat z)
  end.

Fixpoint zeros (k : nat) : string :=
  match k with
  | O => EmptyString
  | S k' => String "0" (zeros k')
  end.

(** [s.zfill(width)] for a string of digits without a sign: zeros are put
    in front until the width is reached, and a longer string is returned
    as it is. *)
Definition zfill (width : nat) (s : string) : string :=
  zeros (width - String.length s) ++ s.

(** [zpad = max(3, len(str(num_frames - 1)))]. *)
Definition zpad (num_frames : Z) : nat :=
  Nat.max 3 (String.length (py_str_int (num_frames - 1))).

(** [idx_to_str(idx) = str(idx).zfill(zpad)]; the code calls it on [0] and
    on the indices of [range(num_frames)], which are not negative. *)
Definition idx_to_str (num_frames : Z) (idx : nat) : string :=
  zfill (zpad num_frames) (py_str idx).

(** The file name [f'{k}_{idx_to_str(idx)}.{file_ext}'] that is joined to
    [out_dir] for frame [idx] of the image kind [k]. *)
Definition frame_name (num_frames : Z) (k : string) (idx : nat)
    (file_ext : string) : string :=
  k ++ "_" ++ idx_to_str num_frames idx ++ "." ++ file_ext.

End VideoNames.

(** * Properties *)

(** ** Colour spaces *)

Section ColorSpaceFacts.

Import ColorSpace.
Local Open Scope R_scope.

Lemma Rpower_pos (x y : R) : 0 < Rpower x y.
Proof. unfold Rpower. apply exp_pos. Qed.

Lemma Rpower_5_12_12_5 (x : R) : 0 < x -> Rpower (Rpower x (5 / 12)) (12 / 5) = x.
Proof.
  intros Hx. rewrite Rpower_mult.
  replace (5 / 12 * (12 / 5)) with 1 by lra.
  now apply Rpower_1.
Qed.

Lemma Rpower_12_5_5_12 (x : R) : 0 < x -> Rpower (Rpower x (12 / 5)) (5 / 12) = x.
Proof.
  intros Hx. rewrite Rpower_mult.
  replace (12 / 5 * (5 / 12)) with 1 by lra.
  now apply Rpower_1.
Qed.

(** A fractional power undone on a natural exponent:
    [(x^(12/5))^5 = x^12] and [(x^(5/12))^12 = x^5]. *)
Lemma Rpower_12_5_pow (x : R) : 0 < x -> Rpower x (12 / 5) ^ 5 = x ^ 12.
Proof.
  intros Hx.
  rewrite <- (Rpower_pow 5) by apply Rpower_pos.
  rewrite Rpower_mult.
  replace (12 / 5 * INR 5) with (INR 12) by (simpl; lra).
  now apply Rpower_pow.
Qed.

Lemma Rpower_5_12_pow (x : R) : 0 < x -> Rpower x (5 / 12) ^ 12 = x ^ 5.
Proof.
  intros Hx.
  rewrite <- (Rpower_pow 12) by apply Rpower_pos.
  rewrite Rpower_mult.
  replace (5 / 12 * INR 12) with (INR 5) by (simpl; lra).
  now apply Rpower_pow.
Qed.

Lemma pow5_lt_inv (a b : R) : 0 < a -> 0 < b -> a ^ 5 < b ^ 5 -> a < b.
Proof.
  intros Ha Hb H.
  destruct (Rlt_le_dec a b) as [Hlt | Hle]; [exact Hlt | exfalso].
  assert (b ^ 5 <= a ^ 5) by (apply pow_incr; lra).
  lra.
Qed.

(** The knee lies strictly between 0.0031308 and 0.0031309. *)
Lemma knee_bounds : 0.0031308 < knee < 0.0031309.
Proof.
  assert (Hc : 0 < (200 * 0.04045 + 11) / 211) by lra.
  assert (Hk : knee ^ 5 = ((200 * 0.04045 + 11) / 211) ^ 12)
    by (apply Rpower_12_5_pow; exact Hc).
  assert (Hpos : 0 < knee) by apply Rpower_pos.
  split; apply pow5_lt_inv; try lra; rewrite Hk; lra.
Qed.

(** C8, as the code has it.  With [eps] at most 0.0031308, the two
    conversions undo each other everywhere outside a narrow band at the
    breakpoint: [srgb_to_linear (linear_to_srgb x) = x] for
    [x <= 0.0031308] and for [x] above the knee (about 0.00313080728), and
    [linear_to_srgb (srgb_to_linear y) = y] for [y <= 0.040449936]
    (which is 323/25 * 0.0031308) and for [y > 0.04045].  No exception is
    needed near 0, where both functions are linear. *)
Theorem srgb_round_trip_outside_band (eps x : R) :
  eps <= 0.0031308 ->
  (x <= 0.0031308 \/ knee < x ->
     srgb_to_linear eps (linear_to_srgb eps x) = x) /\
  (x <= 0.040449936 \/ 0.04045 < x ->
     linear_to_srgb eps (srgb_to_linear eps x) = x).
Proof.
  intros Heps. pose proof knee_bounds as [Hk1 Hk2]. split.
  - intros [Hlo | Hhi]; unfold linear_to_srgb, srgb_to_linear.
    + destruct (Rle_dec x 0.0031308) as [_ | n]; [| contradiction].
      destruct (Rle_dec (323 / 25 * x) 0.04045) as [_ | n]; lra.
    + destruct (Rle_dec x 0.0031308) as [l | _]; [lra |].
      assert (Hx : 0 < x) by lra.
      rewrite (Rmax_right eps x) by lra.
      assert (Hc : 0 < (200 * 0.04045 + 11) / 211) by lra.
      assert (Hp : (200 * 0.04045 + 11) / 211 < Rpower x (5 / 12)).
      { rewrite <- (Rpower_12_5_5_12 Hc).
        apply Rlt_Rpower_l; [lra |]. split; [apply Rpower_pos | exact Hhi]. }
      destruct (Rle_dec ((211 * Rpower x (5 / 12) - 11) / 200) 0.04045)
        as [l | _]; [lra |].
      replace ((200 * ((211 * Rpower x (5 / 12) - 11) / 200) + 11) / 211)
        with (Rpower x (5 / 12)) by lra.
      rewrite Rmax_right by lra.
      now apply Rpower_5_12_12_5.
  - intros [Hlo | Hhi]; unfold linear_to_srgb, srgb_to_linear.
    + destruct (Rle_dec x 0.04045) as [_ | n]; [| lra].
      destruct (Rle_dec (25 / 323 * x) 0.0031308) as [_ | n]; lra.
    + destruct (Rle_dec x 0.04045) as [l | _]; [lra |].
      assert (Hb : (200 * 0.04045 + 11) / 211 < (200 * x + 11) / 211) by lra.
      rewrite (Rmax_right eps) by lra.
      assert (Hl : knee < Rpower ((200 * x + 11) / 211) (12 / 5)).
      { unfold knee. apply Rlt_Rpower_l; lra. }
      destruct (Rle_dec (Rpower ((200 * x + 11) / 211) (12 / 5)) 0.0031308)
        as [l | _]; [lra |].
      rewrite Rmax_right by lra.
      rewrite Rpower_12_5_5_12 by lra. lra.
Qed.

Lemma srgb_round_trip_outside_band_witness :
  srgb_to_linear default_eps (linear_to_srgb default_eps (1 / 2)) = 1 / 2 /\
  linear_to_srgb default_eps (srgb_to_linear default_eps (1 / 2)) = 1 / 2.
Proof.
  assert (He : default_eps <= 0.0031308) by (unfold default_eps; lra).
  pose proof knee_bounds as [_ Hk].
  destruct (@srgb_round_trip_outside_band default_eps (1 / 2) He) as [H1 H2].
  split; [apply H1; right; lra | apply H2; right; lra].
Defined.

(** C8 as stated fails at the breakpoint: 0.04045 lies in [[0, 1]], far
    above [eps], and is not recovered after decoding and re-encoding. *)
Lemma srgb_round_trip_fails_at_breakpoint :
  0 <= 0.04045 <= 1 /\ default_eps < 0.04045 /\
  linear_to_srgb default_eps (srgb_to_linear default_eps 0.04045) <> 0.04045.
Proof.
  assert (He : default_eps < 0.0031308) by (unfold default_eps; lra).
  split; [lra |]. split; [lra |].
  unfold linear_to_srgb, srgb_to_linear.
  destruct (Rle_dec 0.04045 0.04045) as [_ | n]; [| lra].
  destruct (Rle_dec (25 / 323 * 0.04045) 0.0031308) as [l | _]; [lra |].
  rewrite Rmax_right by lra.
  intros H.
  assert (Hp : Rpower (25 / 323 * 0.04045) (5 / 12) = 1909 / 21100) by lra.
  assert (Hq : (25 / 323 * 0.04045) ^ 5 = (1909 / 21100) ^ 12).
  { rewrite <- Hp. symmetry. apply Rpower_5_12_pow. lra. }
  lra.
Qed.

End ColorSpaceFacts.

(** ** Sorting and weighted percentiles *)

Section WeightedPercentile.

Local Open Scope Q_scope.

Lemma Qle_bool_true (a b : Q) : a <= b -> Qle_bool a b = true.
Proof. intros H. now apply Qle_bool_iff. Qed.

Lemma Qle_bool_false (a b : Q) : b < a -> Qle_bool a b = false.
Proof.
  intros H. destruct (Qle_bool a b) eqn:E; [| reflexivity].
  apply Qle_bool_iff in E. lra.
Qed.

Lemma Qle_bool_false_inv (a b : Q) : Qle_bool a b = false -> b < a.
Proof.
  intros E. apply Qnot_le_lt. intros H.
  apply Qle_bool_iff in H. congruence.
Qed.

Variable key : nat -> Q.

Lemma insert_idx_perm (i : nat) (l : list nat) :
  Permutation (insert_idx key i l) (i :: l).
Proof.
  induction l as [| j l IH]; cbn [insert_idx]; [reflexivity |].
  destruct (Qle_bool (key i) (key j)); [reflexivity |].
  rewrite IH. apply perm_swap.
Qed.

Lemma insert_idx_sorted (i : nat) (l : list nat) :
  StronglySorted (key_le key) l -> StronglySorted (key_le key) (insert_idx key i l).
Proof.
  induction 1 as [| j l Hs IH Hall]; cbn [insert_idx].
  - constructor; constructor.
  - destruct (Qle_bool (key i) (key j)) eqn:E.
    + apply Qle_bool_iff in E.
      constructor; [constructor; assumption |].
      constructor; [exact E |].
      eapply Forall_impl; [| exact Hall].
      intros k Hk. unfold key_le in *. lra.
    + apply Qle_bool_false_inv in E.
      constructor; [exact IH |].
      eapply Permutation_Forall; [symmetry; apply insert_idx_perm |].
      constructor; [unfold key_le; lra | exact Hall].
Qed.

Lemma fold_insert_perm (l : list nat) :
  Permutation (fold_right (insert_idx key) [] l) l.
Proof.
  induction l as [| i l IH]; cbn [fold_right]; [reflexivity |].
  rewrite insert_idx_perm. now constructor.
Qed.

Lemma fold_insert_sorted (l : list nat) :
  StronglySorted (key_le key) (fold_right (insert_idx key) [] l).
Proof.
  induction l as [| i l IH]; cbn [fold_right]; [constructor |].
  now apply insert_idx_sorted.
Qed.

Lemma sorted_map_key (l : list nat) :
  StronglySorted (key_le key) l -> StronglySorted Qle (map key l).
Proof.
  induction 1 as [| j l Hs IH Hall]; cbn [map]; constructor; [exact IH |].
  rewrite Forall_map. exact Hall.
Qed.

End WeightedPercentile.

Lemma argsort_perm (x : list Q) : Permutation (argsort x) (seq 0 (length x)).
Proof. apply fold_insert_perm. Qed.

Lemma argsort_sorted (x : list Q) :
  StronglySorted Qle (map (fun i => nth i x 0) (argsort x)).
Proof. apply sorted_map_key, fold_insert_sorted. Qed.

Lemma argsort_in_range (x : list Q) (i : nat) :
  In i (argsort x) -> (i < length x)%nat.
Proof.
  intros H. apply (Permutation_in _ (argsort_perm x)) in H.
  apply in_seq in H. lia.
Qed.

Lemma gather_in_range (t : list Q) (idx : list nat) :
  Forall (fun i => (i < length t)%nat) idx ->
  gather t idx = Ok (map (fun i => nth i t 0) idx).
Proof.
  induction 1 as [| i idx Hi _ IH]; cbn [gather map]; [reflexivity |].
  rewrite (nth_error_nth' t 0 Hi), IH. reflexivity.
Qed.

Lemma remainder_nonzero (idx : list nat) (m : nat) :
  m <> 0%nat -> remainder idx m = Ok (map (fun i => (i mod m)%nat) idx).
Proof.
  intros Hm. destruct idx as [| i idx]; [reflexivity |].
  destruct m; [contradiction | reflexivity].
Qed.

Lemma length_cumsum_from (acc : Q) (l : list Q) :
  length (cumsum_from acc l) = length l.
Proof.
  revert acc. induction l as [| w l IH]; intros acc; cbn; [reflexivity |].
  now rewrite IH.
Qed.

Lemma last_elem_ok (l : list Q) : l <> [] -> exists v, last_elem l = Ok v.
Proof.
  intros H. unfold last_elem.
  destruct (rev l) as [| v r] eqn:E; [| now exists v].
  apply (f_equal (@rev Q)) in E. rewrite rev_involutive in E. contradiction.
Qed.

Lemma interp_ok (ts xp fp : list Q) :
  xp <> [] -> fp <> [] ->
  exists r, interp ts xp fp = Ok r /\ length r = length ts.
Proof.
  intros Hx Hf.
  destruct xp as [| x0 xp]; [contradiction |].
  destruct fp as [| f0 fp]; [contradiction |].
  induction ts as [| t ts [r [IH Hl]]]; [now exists [] |].
  cbn [interp interp1]. rewrite IH.
  destruct (Qle_bool t x0); cbn [bind]; eexists; (split; [reflexivity |]);
    cbn [length]; now rewrite Hl.
Qed.

Lemma sort_sorted_input (w : Q) :
  sort_and_permute zero_to_nine (repeat w 10) = Ok (zero_to_nine, repeat w 10).
Proof. reflexivity. Qed.

(** C1, as the code has it.  For the values 0, 1, ..., 9 with every weight
    equal to the same positive [w] and [p = 50], [weighted_percentile]
    returns 4: the cumulative weights are [w, 2w, ..., 10w], the target
    [50 * 10w / 100 = 5w] is the cumulative weight of the fifth value, and
    interpolation returns that value. *)
Theorem weighted_percentile_uniform_median (w : Q) :
  0 < w ->
  exists r,
    weighted_percentile (vec zero_to_nine) (vec (repeat w 10)) [50] false
      = Ok [r]
    /\ r == 4.
Proof.
  intros Hw. unfold weighted_percentile.
  cbn [data vec]. rewrite sort_sorted_input. cbn [bind].
  cbn [repeat cumsum cumsum_from last_elem rev app map interp zero_to_nine].
  cbn [bind].
  set (total := 0 + w + w + w + w + w + w + w + w + w + w).
  assert (Ht : 50 * total / 100 == 5 * w) by (unfold total; field).
  unfold interp1.
  rewrite Qle_bool_false by (rewrite Ht; lra).
  cbn [interp_seg].
  repeat (rewrite Qle_bool_true by (rewrite Ht; lra)).
  rewrite Qle_bool_false by (rewrite Ht; lra).
  cbn [bind]. eexists. split; [reflexivity |].
  rewrite Ht. field. lra.
Qed.

Lemma weighted_percentile_uniform_median_witness :
  exists r,
    weighted_percentile (vec zero_to_nine) (vec (repeat 1 10)) [50] false
      = Ok [r]
    /\ r == 4.
Proof.
  apply (@weighted_percentile_uniform_median 1). reflexivity.
Defined.

(** C1 as stated fails: with unit weights the result is not 4.5. *)
Lemma weighted_percentile_uniform_not_4_5 :
  ~ exists r,
      weighted_percentile (vec zero_to_nine) (vec (repeat 1 10)) [50] false
        = Ok [r]
      /\ r == 9 # 2.
Proof.
  intros [r [H E]]. vm_compute in H. injection H as <-. discriminate E.
Qed.

Lemma sort_and_permute_ok (x weight : list Q) :
  weight <> [] ->
  sort_and_permute x weight
  = Ok (map (fun i => nth i x 0) (argsort x),
        map (fun i => nth (i mod length weight) weight 0) (argsort x)).
Proof.
  intros Hw.
  assert (Hm : length weight <> 0%nat)
    by (destruct weight; [contradiction | discriminate]).
  unfold sort_and_permute.
  rewrite gather_in_range
    by (apply Forall_forall; intros i Hi; now apply argsort_in_range).
  cbn [bind]. rewrite (remainder_nonzero _ Hm). cbn [bind].
  rewrite gather_in_range.
  - cbn [bind]. rewrite map_map. reflexivity.
  - apply Forall_forall. intros j Hj. apply in_map_iff in Hj.
    destruct Hj as [i [<- _]]. now apply Nat.mod_upper_bound.
Qed.

Lemma argsort_nonempty (x : list Q) : x <> [] -> argsort x <> [].
Proof.
  intros Hx E. pose proof (argsort_perm x) as P.
  rewrite E in P. apply Permutation_nil in P.
  destruct x; [contradiction | discriminate].
Qed.

Lemma weighted_percentile_total (x weight : tensor) (ps : list Q) :
  data x <> [] -> data weight <> [] ->
  exists r, weighted_percentile x weight ps false = Ok r
            /\ length r = length ps.
Proof.
  intros Hx Hw. unfold weighted_percentile.
  rewrite (sort_and_permute_ok _ Hw). cbn [bind].
  pose proof (argsort_nonempty Hx) as Hidx.
  set (xs := map (fun i => nth i (data x) 0) (argsort (data x))).
  set (ws := map _ (argsort (data x))).
  assert (Hws : cumsum ws <> []).
  { intros E. apply (f_equal (@length Q)) in E. unfold cumsum in E.
    rewrite length_cumsum_from in E. unfold ws in E.
    rewrite length_map in E.
    destruct (argsort (data x)); [contradiction | discriminate]. }
  destruct (last_elem_ok Hws) as [total ->]. cbn [bind].
  destruct (@interp_ok (map (fun p => p * total / 100) ps) (cumsum ws) xs Hws)
    as [r [Hr Hl]].
  { unfold xs. destruct (argsort (data x)); [contradiction | discriminate]. }
  exists r. split; [exact Hr |]. now rewrite Hl, length_map.
Qed.



(** Where the wraparound ends: with no weights at all there is no length
    to take the remainder by, and the call raises. *)
Lemma weighted_percentile_empty_weights_fail :
  length (@nil Q) <> length [1]
  /\ sort_and_permute [1] [] = Err RuntimeError
  /\ weighted_percentile (vec [1]) (vec []) [50] false = Err RuntimeError.
Proof. repeat split; discriminate. Qed.

(** ** Matting *)

Lemma nth_map_lt {A B : Type} (f : A -> B) (l : list A) (k : nat) (d : A) (d' : B) :
  (k < length l)%nat -> nth k (map f l) d' = f (nth k l d).
Proof.
  intros H. rewrite (nth_indep (map f l) d' (f d)) by now rewrite length_map.
  apply map_nth.
Qed.

Lemma firstn_plus {A : Type} (a b : nat) (l : list A) :
  firstn (a + b) l = firstn a l ++ firstn b (skipn a l).
Proof.
  revert l. induction a as [| a IH]; intros l; [reflexivity |].
  destruct l as [| x l]; cbn [Nat.add firstn skipn app].
  - now rewrite firstn_nil.
  - now rewrite IH.
Qed.

Lemma over_nth (c : nat) (alpha : list Q) :
  forall (rgb bg : list Q) (p k : nat),
    (p < length alpha)%nat -> length bg = length alpha ->
    (c * length alpha <= length rgb)%nat -> (k < c)%nat ->
    nth (p * c + k) (over c rgb alpha bg) 0
    = nth (p * c + k) rgb 0 * nth p alpha 0
      + nth p bg 0 * (1 - nth p alpha 0).
Proof.
  induction alpha as [| a alpha IH]; intros rgb bg p k Hp Hbg Hrgb Hk;
    [cbn in Hp; lia |].
  destruct bg as [| b bg]; [discriminate |].
  cbn [length] in *. cbn [over].
  assert (Hf : length (firstn c rgb) = c) by (rewrite length_firstn; nia).
  set (f := fun v => v * a + b * (1 - a)).
  destruct p as [| p].
  - cbn [Nat.mul Nat.add nth].
    rewrite app_nth1 by (rewrite length_map; lia).
    rewrite (nth_map_lt _ _ 0) by lia.
    rewrite nth_firstn.
    destruct (k <? c)%nat eqn:E; [reflexivity | apply Nat.ltb_ge in E; lia].
  - replace (S p * c + k)%nat with (length (map f (firstn c rgb)) + (p * c + k))%nat
      by (rewrite length_map, Hf; lia).
    rewrite app_nth2_plus.
    rewrite IH; [| lia | lia | rewrite length_skipn; nia | lia].
    rewrite nth_skipn. cbn [nth].
    rewrite length_map, Hf. reflexivity.
Qed.

Lemma over_length (c : nat) (alpha : list Q) :
  forall (rgb bg : list Q),
    length bg = length alpha -> (c * length alpha <= length rgb)%nat ->
    length (over c rgb alpha bg) = (c * length alpha)%nat.
Proof.
  induction alpha as [| a alpha IH]; intros rgb bg Hbg Hrgb.
  - cbn. lia.
  - destruct bg as [| b bg]; [discriminate |].
    cbn [length] in *. cbn [over].
    rewrite length_app, length_map, length_firstn, IH;
      [nia | lia | rewrite length_skipn; nia].
Qed.

Lemma over_opaque (c : nat) (alpha : list Q) :
  forall (rgb bg : list Q),
    length bg = length alpha -> (c * length alpha <= length rgb)%nat ->
    Forall (fun a => a == 1) alpha ->
    Qlist_eq (over c rgb alpha bg) (firstn (c * length alpha) rgb).
Proof.
  induction alpha as [| a alpha IH]; intros rgb bg Hbg Hrgb Hone.
  - cbn. rewrite Nat.mul_0_r. constructor.
  - destruct bg as [| b bg]; [discriminate |].
    inversion Hone as [| ? ? Ha Hrest]; subst.
    cbn [length] in *. cbn [over].
    replace (c * S (length alpha))%nat with (c + c * length alpha)%nat by lia.
    rewrite firstn_plus. apply Forall2_app.
    + clear - Ha. induction (firstn c rgb) as [| v l IHl]; cbn [map]; constructor.
      * rewrite Ha. ring.
      * exact IHl.
    + apply IH; [lia | rewrite length_skipn; nia | exact Hrest].
Qed.

Lemma outer_xor_nth (a b : list nat) (r col : nat) :
  (r < length a)%nat -> (col < length b)%nat ->
  nth (r * length b + col) (outer_xor a b) false
  = xorb (negb (nth r a 0 =? 0)%nat) (negb (nth col b 0 =? 0)%nat).
Proof.
  revert r. induction a as [| u a IH]; intros r Hr Hc; [cbn in Hr; lia |].
  unfold outer_xor in *. cbn [flat_map].
  destruct r as [| r].
  - cbn [Nat.mul Nat.add nth].
    rewrite app_nth1 by now rewrite length_map.
    now rewrite (nth_map_lt _ _ 0%nat).
  - set (g := fun v => xorb (negb (u =? 0)%nat) (negb (v =? 0)%nat)).
    replace (S r * length b + col)%nat
      with (length (map g b) + (r * length b + col))%nat
      by (rewrite length_map; lia).
    rewrite app_nth2_plus. cbn [nth]. apply IH; [cbn in Hr; lia | exact Hc].
Qed.

Lemma outer_xor_length (a b : list nat) :
  length (outer_xor a b) = (length a * length b)%nat.
Proof.
  unfold outer_xor. induction a as [| u a IH]; [reflexivity |].
  cbn [flat_map length Nat.mul]. now rewrite length_app, length_map, IH.
Qed.

(** [(i % (2 * width)) // width] is the parity of the tile index
    [i // width]. *)
Lemma stripe_parity (i width : nat) :
  (0 < width)%nat -> ((i mod (2 * width)) / width = (i / width) mod 2)%nat.
Proof.
  intros Hw. rewrite (Nat.mul_comm 2 width), Nat.Div0.mod_mul_r.
  rewrite (Nat.add_comm (i mod width)), (Nat.mul_comm width), Nat.div_add_l by lia.
  rewrite (Nat.div_small (i mod width)) by (apply Nat.mod_upper_bound; lia). lia.
Qed.

Lemma stripe_ok (n width : nat) :
  (0 < width)%nat ->
  stripe n width = Ok (map (fun i => (i / width) mod 2)%nat (seq 0 n)).
Proof.
  intros Hw. unfold stripe.
  replace (map (fun i => (i mod (2 * width)) / width)%nat (seq 0 n))
    with (map (fun i => (i / width) mod 2)%nat (seq 0 n))
    by (apply map_ext; intros i; now rewrite stripe_parity).
  destruct n; [reflexivity |]. destruct width; [lia | reflexivity].
Qed.

Lemma checkerboard_ok (h w : nat) (dark light : Q) (width : nat) :
  (0 < width)%nat ->
  exists bg,
    checkerboard h w dark light width = Ok bg
    /\ length bg = (h * w)%nat
    /\ forall r col, (r < h)%nat -> (col < w)%nat ->
         nth (r * w + col) bg 0 = checker_value dark light width r col.
Proof.
  intros Hw. unfold checkerboard. rewrite !stripe_ok by exact Hw.
  cbn [bind]. eexists. split; [reflexivity |]. split.
  - now rewrite length_map, outer_xor_length, !length_map, !length_seq.
  - intros r col Hr Hc.
    set (rs := map (fun i => (i / width) mod 2)%nat (seq 0 h)).
    set (cs := map (fun i => (i / width) mod 2)%nat (seq 0 w)).
    assert (Hlr : length rs = h) by (unfold rs; now rewrite length_map, length_seq).
    assert (Hlc : length cs = w) by (unfold cs; now rewrite length_map, length_seq).
    rewrite (nth_map_lt _ _ false)
      by (rewrite outer_xor_length, Hlr, Hlc; nia).
    rewrite <- Hlc at 1. rewrite outer_xor_nth by lia.
    unfold rs, cs.
    rewrite !(nth_map_lt _ _ 0%nat) by (rewrite length_seq; lia).
    rewrite !seq_nth by lia. cbn [Nat.add]. unfold checker_value.
    assert (P : forall q, (q mod 2 < 2)%nat) by (intros; apply Nat.mod_upper_bound; lia).
    pose proof (P (r / width)%nat) as P1. pose proof (P (col / width)%nat) as P2.
    destruct ((r / width) mod 2)%nat as [| [| ?]]; [| | lia];
      destruct ((col / width) mod 2)%nat as [| [| ?]]; try lia; reflexivity.
Qed.

(** C2, as the code has it.  For [acc] of shape [[h; w]], [vis] of shape
    [[h; w; c]] and a positive [width], [matte] returns an image of the
    shape of [vis] whose element [(r, col, k)] is
    [vis * acc + bg * (1 - acc)] at that pixel, where [bg] is light exactly
    when [(r // width) % 2] XOR [(col // width) % 2] is true and dark
    otherwise.  With [acc] identically 1 the result is [vis]; with [acc]
    identically 0 it is the checkerboard. *)
Theorem matte_composites_over_checkerboard
    (vis acc : tensor) (dark light : Q) (width h w c : nat) :
  shape acc = [h; w] -> shape vis = [h; w; c] ->
  wf_tensor acc -> wf_tensor vis -> (0 < width)%nat ->
  exists out,
    matte vis acc dark light width = Ok out
    /\ shape out = shape vis
    /\ (forall r col k, (r < h)%nat -> (col < w)%nat -> (k < c)%nat ->
          let p := (r * w + col)%nat in
          nth (p * c + k) (data out) 0
          = nth (p * c + k) (data vis) 0 * nth p (data acc) 0
            + checker_value dark light width r col * (1 - nth p (data acc) 0))
    /\ (Forall (fun a => a == 1) (data acc) -> Qlist_eq (data out) (data vis))
    /\ (Forall (fun a => a == 0) (data acc) ->
        forall r col k, (r < h)%nat -> (col < w)%nat -> (k < c)%nat ->
          nth ((r * w + col) * c + k) (data out) 0
          == checker_value dark light width r col).
Proof.
  intros Hacc Hvis Wacc Wvis Hw.
  unfold wf_tensor in *. rewrite Hacc in Wacc. rewrite Hvis in Wvis.
  cbn [numel fold_right] in Wacc, Wvis.
  destruct (checkerboard_ok h w dark light Hw) as [bg [Hbg [Lbg Nbg]]].
  assert (La : length (data acc) = (h * w)%nat) by lia.
  assert (Lv : (c * length (data acc) <= length (data vis))%nat) by nia.
  assert (Lb : length bg = length (data acc)) by lia.
  assert (Hnth : forall r col k, (r < h)%nat -> (col < w)%nat -> (k < c)%nat ->
            nth ((r * w + col) * c + k) (over c (data vis) (data acc) bg) 0
            = nth ((r * w + col) * c + k) (data vis) 0
                * nth (r * w + col) (data acc) 0
              + checker_value dark light width r col
                * (1 - nth (r * w + col) (data acc) 0)).
  { intros r col k Hr Hc Hk.
    rewrite over_nth; [| nia | exact Lb | exact Lv | exact Hk].
    now rewrite Nbg. }
  unfold matte. rewrite Hacc, Hbg, Hvis. cbn [bind].
  rewrite !Nat.eqb_refl. cbn [andb].
  eexists. split; [reflexivity |]. cbn [shape data].
  split; [reflexivity |]. split; [exact Hnth |]. split.
  - intros Hone.
    pose proof (@over_opaque c (data acc) (data vis) bg Lb Lv Hone) as H.
    replace (c * length (data acc))%nat with (length (data vis)) in H by nia.
    now rewrite firstn_all in H.
  - intros Hzero r col k Hr Hc Hk. rewrite Hnth by assumption.
    assert (Hz : nth (r * w + col) (data acc) 0 == 0).
    { rewrite Forall_forall in Hzero. apply Hzero, nth_In. nia. }
    rewrite Hz. ring.
Qed.

Lemma matte_composites_over_checkerboard_witness :
  exists out,
    matte (mkTensor [1; 2; 1]%nat [1; 1]) (mkTensor [1; 2]%nat [0; 1 # 2])
      matte_dark matte_light matte_width = Ok out
    /\ shape out = [1; 2; 1]%nat.
Proof.
  destruct (@matte_composites_over_checkerboard
              (mkTensor [1; 2; 1]%nat [1; 1]) (mkTensor [1; 2]%nat [0; 1 # 2])
              matte_dark matte_light matte_width 1 2 1
              eq_refl eq_refl eq_refl eq_refl)
    as [out [H [Hs _]]].
  - unfold matte_width. lia.
  - exists out. split; [exact H | exact Hs].
Defined.

(** C2 as stated fails at pixel (0, 0): both tile parities are 0, their XOR
    is false, and with [acc = 0] the pixel comes out dark (0.8), not
    light (1). *)
Lemma matte_origin_is_dark :
  xorb ((0 / matte_width) mod 2 =? 1)%nat ((0 / matte_width) mod 2 =? 1)%nat
  = false
  /\ exists out,
       matte (mkTensor [1; 1; 1]%nat [0]) (mkTensor [1; 1]%nat [0])
         matte_dark matte_light matte_width = Ok out
       /\ nth 0 (data out) 0 == matte_dark
       /\ ~ nth 0 (data out) 0 == matte_light.
Proof.
  split; [reflexivity |].
  eexists. split; [reflexivity |]. cbn. split; [reflexivity | discriminate].
Qed.

(** ** Colormap visualisation *)

(** The two automatic bounds either both exist, for every pair of
    percentiles, or the call fails with the same error for every pair. *)
Lemma weighted_percentile_pair_cases (value weight : tensor) :
  (forall p1 p2, exists a b,
      weighted_percentile value weight [p1; p2] false = Ok [a; b])
  \/ (exists e, forall p1 p2,
        weighted_percentile value weight [p1; p2] false = Err e).
Proof.
  unfold weighted_percentile.
  destruct (sort_and_permute (data value) (data weight)) as [[xs ws] | e];
    cbn [bind]; [| right; exists e; reflexivity].
  destruct (last_elem (cumsum ws)) as [total | e];
    cbn [bind]; [| right; exists e; reflexivity].
  destruct (cumsum ws) as [| x0 xp];
    [right; exists ValueError; reflexivity |].
  destruct xs as [| f0 fp]; [right; exists ValueError; reflexivity |].
  left. intros p1 p2. cbn [map interp interp1].
  destruct (Qle_bool (p1 * total / 100) x0);
    destruct (Qle_bool (p2 * total / 100) x0); cbn [bind];
    eexists; eexists; reflexivity.
Qed.

Lemma truthy_nonzero (m : Q) : ~ m == 0 -> truthy (Some m) = true.
Proof.
  intros H. unfold truthy. destruct (Qeq_bool m 0) eqn:E; [| reflexivity].
  apply Qeq_bool_iff in E. contradiction.
Qed.

Lemma truthy_zero (z : Q) : z == 0 -> truthy (Some z) = false.
Proof. intros H. unfold truthy. apply Qeq_bool_iff in H. now rewrite H. Qed.

Lemma torch_mod_unit_interval (x m : Q) :
  m == 1 -> 0 <= x -> x < 1 -> torch_mod x m / m == x.
Proof.
  intros Hm H0 H1. unfold torch_mod.
  assert (Hx : x / m == x) by (rewrite Hm; field).
  assert (Hf : Qfloor (x / m) = 0%Z).
  { rewrite Hx.
    pose proof (Qfloor_le x) as Hle. pose proof (Qlt_floor x) as Hlt.
    assert (L : (0 < Qfloor x + 1)%Z).
    { rewrite Zlt_Qlt. change (inject_Z 0) with 0. lra. }
    assert (U : (Qfloor x < 1)%Z).
    { rewrite Zlt_Qlt. change (inject_Z 1) with 1. lra. }
    lia. }
  rewrite Hf, Hm. cbn [inject_Z]. field.
Qed.



(** C10.  A bound passed as zero is not truthy, so [lo or ...] and
    [hi or ...] replace it by the automatic bound: the call returns what it
    returns when the bound is not given at all. *)
Theorem visualize_cmap_zero_bound_is_ignored
    (value weight : tensor) (colormap : option (Q -> list Q))
    (lo hi : option Q) (percentile : Q) (curve_fn : Q -> Q)
    (modulus : option Q) (matte_background : bool) (z : Q) :
  z == 0 ->
  visualize_cmap value weight colormap (Some z) hi percentile curve_fn
    modulus matte_background
  = visualize_cmap value weight colormap None hi percentile curve_fn
      modulus matte_background
  /\ visualize_cmap value weight colormap lo (Some z) percentile curve_fn
       modulus matte_background
     = visualize_cmap value weight colormap lo None percentile curve_fn
         modulus matte_background.
Proof.
  intros Hz. pose proof (truthy_zero Hz) as Ht.
  assert (Hor : forall b, py_or (Some z) b = py_or None b)
    by (intros b; unfold py_or; now rewrite Ht).
  unfold visualize_cmap.
  destruct (weighted_percentile value weight
              [50 - percentile / 2; 50 + percentile / 2] false)
    as [[| a [| b [| c r]]] | e]; cbn [bind]; try (split; reflexivity).
  rewrite !Hor. split; reflexivity.
Qed.

(** The call of [visualize_suite]: [lo = torch.tensor(0)],
    [hi = torch.tensor(1)], a gray colormap, no matting. *)
Lemma visualize_cmap_zero_bound_is_ignored_witness :
  visualize_cmap (mkTensor [1; 2]%nat [1 # 4; 3 # 4]) (mkTensor [1; 2]%nat [1; 1])
    (Some (fun v => [v; v; v; 1])) (Some 0) (Some 1) 99 (fun x => x) None false
  = visualize_cmap (mkTensor [1; 2]%nat [1 # 4; 3 # 4]) (mkTensor [1; 2]%nat [1; 1])
      (Some (fun v => [v; v; v; 1])) None (Some 1) 99 (fun x => x) None false.
Proof.
  assert (Hz : 0 == 0) by reflexivity.
  exact (proj1 (@visualize_cmap_zero_bound_is_ignored
                  (mkTensor [1; 2]%nat [1 # 4; 3 # 4]) (mkTensor [1; 2]%nat [1; 1])
                  (Some (fun v => [v; v; v; 1])) None (Some 1) 99 (fun x => x)
                  None false 0 Hz)).
Defined.

(** ** Colour correction *)

Lemma chunks_length (c n : nat) (l : list Q) : length (chunks c n l) = n.
Proof.
  revert l. induction n as [| n IH]; intros l; cbn [chunks length];
    [reflexivity | now rewrite IH].
Qed.

Lemma chunks_rows (c n : nat) (l : list Q) :
  (n * c <= length l)%nat -> Forall (fun row => length row = c) (chunks c n l).
Proof.
  revert l. induction n as [| n IH]; intros l H; cbn [chunks]; constructor.
  - rewrite length_firstn. cbn in H. lia.
  - apply IH. rewrite length_skipn. cbn in H. lia.
Qed.

Lemma concat_chunks (c n : nat) (l : list Q) :
  length l = (n * c)%nat -> concat (chunks c n l) = l.
Proof.
  revert l. induction n as [| n IH]; intros l H; cbn [chunks concat].
  - destruct l; [reflexivity | discriminate].
  - rewrite IH by (rewrite length_skipn; cbn in H; lia).
    apply firstn_skipn.
Qed.

Lemma concat_rows_length (c : nat) (m : matrix) :
  Forall (fun row => length row = c) m ->
  length (concat m) = (length m * c)%nat.
Proof.
  induction 1 as [| row m Hrow _ IH]; cbn [concat length]; [reflexivity |].
  rewrite length_app, IH, Hrow. lia.
Qed.

Lemma reshape_rows_inv (t : tensor) (c : nat) (m : matrix) :
  reshape_rows t c = Ok m ->
  c <> 0%nat
  /\ length (data t) = (length (data t) / c * c)%nat
  /\ m = chunks c (length (data t) / c) (data t).
Proof.
  unfold reshape_rows, reshape_infer. cbn [numel fold_right].
  rewrite Nat.mul_1_r.
  destruct (c =? 0)%nat eqn:Ec; [discriminate |].
  destruct (length (data t) mod c =? 0)%nat eqn:Em; [| discriminate].
  cbn [bind hd]. intros [= <-].
  apply Nat.eqb_neq in Ec. apply Nat.eqb_eq in Em.
  repeat split; [exact Ec |].
  pose proof (Nat.div_mod_eq (length (data t)) c). lia.
Qed.

Lemma reshape_rows_ok (t : tensor) (c : nat) :
  (0 < c)%nat -> (length (data t) mod c = 0)%nat ->
  reshape_rows t c = Ok (chunks c (length (data t) / c) (data t)).
Proof.
  intros Hc Hm. unfold reshape_rows, reshape_infer. cbn [numel fold_right].
  rewrite Nat.mul_1_r.
  destruct (c =? 0)%nat eqn:Ec; [apply Nat.eqb_eq in Ec; lia |].
  rewrite Hm. reflexivity.
Qed.

Lemma mapM_length {A B : Type} (f : A -> result B) (l : list A) (r : list B) :
  mapM f l = Ok r -> length r = length l.
Proof.
  revert r. induction l as [| x l IH]; intros r; cbn [mapM].
  - now intros [= <-].
  - destruct (f x) as [y | e]; cbn [bind]; [| discriminate].
    destruct (mapM f l) as [r' | e]; cbn [bind]; [| discriminate].
    intros [= <-]. cbn [length]. now rewrite (IH r').
Qed.

Lemma mapM_ok {A B : Type} (f : A -> result B) (g : A -> B) (l : list A) :
  (forall x, In x l -> f x = Ok (g x)) -> mapM f l = Ok (map g l).
Proof.
  induction l as [| x l IH]; intros H; cbn [mapM map]; [reflexivity |].
  rewrite (H x (or_introl eq_refl)). cbn [bind].
  rewrite IH by (intros y Hy; apply H; now right). reflexivity.
Qed.

Lemma clip_in_unit (v : Q) : in_unit (clip v 0 1).
Proof.
  unfold in_unit, clip. split.
  - apply Q.min_glb; [apply Q.le_max_r | discriminate].
  - apply Q.le_min_r.
Qed.

Lemma clip_id (v : Q) : 0 <= v -> v <= 1 -> clip v 0 1 == v.
Proof.
  intros H0 H1. unfold clip.
  rewrite (Q.max_l v 0 H0). now apply Q.min_l.
Qed.

Section ColorCorrectFacts.

Variable lstsq : matrix -> list Q -> list Q.
Variable eps : Q.

Lemma correct_once_shape
    (c : nat) (mask0 : list (list bool)) (ref_mat m m' : matrix) :
  correct_once lstsq eps c mask0 ref_mat m = Ok m' ->
  length m' = length m
  /\ Forall (fun row => length row = c) m'
  /\ Forall (Forall in_unit) m'.
Proof.
  unfold correct_once.
  destruct (mapM _ (seq 0 c)) as [warp | e] eqn:Ew; cbn [bind]; [| discriminate].
  destruct (forallb _ warp); [| discriminate].
  intros [= <-]. apply mapM_length in Ew. rewrite length_seq in Ew.
  rewrite !length_map. split; [reflexivity |].
  split; apply Forall_map, Forall_forall; intros row _.
  - now rewrite length_map.
  - apply Forall_map, Forall_forall. intros w _. apply clip_in_unit.
Qed.

Lemma correct_loop_shape
    (c : nat) (mask0 : list (list bool)) (ref_mat : matrix) (n : nat) :
  forall m m',
    Forall (fun row => length row = c) m ->
    correct_loop lstsq eps n c mask0 ref_mat m = Ok m' ->
    length m' = length m
    /\ Forall (fun row => length row = c) m'
    /\ ((1 <= n)%nat -> Forall (Forall in_unit) m').
Proof.
  induction n as [| n IH]; intros m m' Hrows; cbn [correct_loop].
  - intros [= <-]. repeat split; [exact Hrows | lia].
  - destruct (correct_once lstsq eps c mask0 ref_mat m) as [m1 | e] eqn:E1;
      cbn [bind]; [| discriminate].
    intros Hl. destruct (correct_once_shape _ _ _ _ E1) as [L1 [R1 U1]].
    destruct (IH m1 m' R1 Hl) as [L [R U]].
    split; [congruence |]. split; [exact R |]. intros _.
    destruct n as [| n]; [| apply U; lia].
    cbn [correct_loop] in Hl. now injection Hl as <-.
Qed.

Lemma broadcast2_same {A B C : Type} (f : A -> B -> C)
    (xs : list A) (ys : list B) :
  length xs = length ys -> broadcast2 f xs ys = Ok (map2 f xs ys).
Proof. intros H. unfold broadcast2. now rewrite H, Nat.eqb_refl. Qed.

Lemma map2_length {A B C : Type} (f : A -> B -> C)
    (xs : list A) (ys : list B) :
  length xs = length ys -> length (map2 f xs ys) = length xs.
Proof.
  revert ys. induction xs as [| x xs IH]; intros [| y ys] H;
    cbn [map2 length] in *; try discriminate; [reflexivity |].
  now rewrite IH by lia.
Qed.

(** With as many rows in the reference as in the image, no broadcasting
    takes place and the solve of channel [c] is on the masked system. *)
Lemma solve_channel_same_rows
    (a_mat : matrix) (mask0 : list (list bool)) (img_mat ref_mat : matrix)
    (c : nat) :
  length mask0 = length img_mat -> length ref_mat = length img_mat ->
  length a_mat = length img_mat ->
  let b := column 0 c ref_mat in
  let mask :=
    map2 andb
      (map2 andb (column false c mask0)
         (map (is_unclipped eps) (column 0 c img_mat)))
      (map (is_unclipped eps) b) in
  solve_channel lstsq eps a_mat mask0 img_mat ref_mat c
  = Ok (lstsq
          (map2 (fun (k : bool) (row : list Q) =>
                   if k then row else map (fun _ => 0) row) mask a_mat)
          (map2 (fun (k : bool) (v : Q) => if k then v else 0) mask b))
  /\ length mask = length img_mat.
Proof.
  intros H0 Hr Ha b mask. unfold solve_channel, column in *.
  assert (L1 : length (map2 andb (map (fun row => nth c row false) mask0)
                  (map (is_unclipped eps) (map (fun row => nth c row 0) img_mat)))
               = length img_mat)
    by (rewrite map2_length; rewrite !length_map; congruence).
  assert (Lm : length mask = length img_mat).
  { unfold mask, b. rewrite map2_length; [exact L1 |].
    rewrite L1, !length_map. congruence. }
  split; [| exact Lm].
  rewrite broadcast2_same by (rewrite !length_map; congruence).
  cbn [bind]. rewrite broadcast2_same by (rewrite L1, !length_map; congruence).
  cbn [bind]. fold b. fold mask.
  rewrite broadcast2_same by congruence.
  cbn [bind]. rewrite broadcast2_same
    by (unfold b; rewrite length_map; congruence).
  reflexivity.
Qed.

Lemma correct_once_total
    (c : nat) (mask0 : list (list bool)) (ref_mat m : matrix) :
  (forall a b, length (lstsq a b) = num_features c) ->
  length mask0 = length m -> length ref_mat = length m ->
  exists m', correct_once lstsq eps c mask0 ref_mat m = Ok m'.
Proof.
  intros Hlen H0 Hr. unfold correct_once.
  set (a_mat := map feature_row m).
  assert (Ha : length a_mat = length m) by (unfold a_mat; apply length_map).
  destruct (mapM (solve_channel lstsq eps a_mat mask0 m ref_mat) (seq 0 c))
    as [warp | e] eqn:Ew.
  - cbn [bind].
    assert (Hall : forallb (fun w => (length w =? num_features c)%nat) warp = true).
    { apply forallb_forall. intros w Hw. apply Nat.eqb_eq.
      clear - Ew Hw Hlen H0 Hr Ha. revert warp Ew Hw.
      induction (seq 0 c) as [| k l IH]; intros warp Ew Hw; cbn [mapM] in Ew.
      - injection Ew as <-. contradiction.
      - destruct (solve_channel_same_rows a_mat mask0 m ref_mat k H0 Hr Ha)
          as [Hs _].
        rewrite Hs in Ew. cbn [bind] in Ew.
        destruct (mapM _ l) as [r | e]; cbn [bind] in Ew; [| discriminate].
        injection Ew as <-. destruct Hw as [<- | Hw]; [apply Hlen |].
        now apply (IH r). }
    rewrite Hall. eexists. reflexivity.
  - exfalso. clear - Ew H0 Hr Ha. revert e Ew.
    induction (seq 0 c) as [| k l IH]; intros e Ew; cbn [mapM] in Ew;
      [discriminate |].
    destruct (solve_channel_same_rows a_mat mask0 m ref_mat k H0 Hr Ha)
      as [Hs _].
    rewrite Hs in Ew. cbn [bind] in Ew.
    destruct (mapM _ l) as [r | e'] eqn:El; cbn [bind] in Ew; [discriminate |].
    now apply (IH e').
Qed.

Lemma correct_loop_total
    (c : nat) (mask0 : list (list bool)) (ref_mat : matrix) (n : nat) :
  (forall a b, length (lstsq a b) = num_features c) ->
  forall m,
    length mask0 = length m -> length ref_mat = length m ->
    exists m', correct_loop lstsq eps n c mask0 ref_mat m = Ok m'.
Proof.
  intros Hlen. induction n as [| n IH]; intros m H0 Hr; cbn [correct_loop].
  - now exists m.
  - destruct (correct_once_total c mask0 ref_mat m Hlen H0 Hr) as [m1 E1].
    rewrite E1. cbn [bind].
    destruct (correct_once_shape _ _ _ _ E1) as [L1 _].
    apply IH; congruence.
Qed.

End ColorCorrectFacts.

(** C6.  When the last dimensions of [img] and [ref] differ,
    [color_correct] raises the [ValueError] of its first statement (the
    spec's ShapeError), whatever the pixels, the solver and the number of
    iterations are: nothing is reshaped or solved before the check. *)
Theorem color_correct_rejects_channel_mismatch
    (lstsq : matrix -> list Q -> list Q) (eps : Q) (img ref : tensor)
    (num_iters ci cr : nat) :
  last_dim img = Ok ci -> last_dim ref = Ok cr -> ci <> cr ->
  color_correct lstsq eps img ref num_iters = Err ValueError.
Proof.
  intros Hi Hr Hne. unfold color_correct. rewrite Hi, Hr. cbn [bind].
  apply Nat.eqb_neq in Hne. now rewrite Hne.
Qed.

Lemma color_correct_rejects_channel_mismatch_witness :
  color_correct (fun _ _ => []) color_correct_eps
    (mkTensor [1; 3]%nat [1 # 2; 1 # 2; 1 # 2])
    (mkTensor [1; 4]%nat [1 # 2; 1 # 2; 1 # 2; 1 # 2]) 5
  = Err ValueError.
Proof.
  apply (@color_correct_rejects_channel_mismatch _ _ _ _ 5%nat 3%nat 4%nat);
    [reflexivity | reflexivity | discriminate].
Defined.



(** *** The identity is a fixed point *)

Lemma Qsquare_nonneg (x : Q) : 0 <= x * x.
Proof.
  destruct (Qlt_le_dec x 0) as [H | H].
  - setoid_replace (x * x) with ((- x) * (- x)) by ring.
    apply Qmult_le_0_compat; lra.
  - apply Qmult_le_0_compat; lra.
Qed.

Lemma sumsq_nonneg (us bs : list Q) : 0 <= sumsq us bs.
Proof.
  unfold sumsq. revert bs.
  induction us as [| u us IH]; intros [| b bs]; cbn [map2 fold_right];
    try lra.
  specialize (IH bs). pose proof (Qsquare_nonneg (u - b)). lra.
Qed.

Lemma sumsq_zero (us bs : list Q) : Forall2 Qeq us bs -> sumsq us bs == 0.
Proof.
  unfold sumsq. induction 1 as [| u b us bs Hub _ IH]; cbn [map2 fold_right];
    [reflexivity |].
  rewrite IH, Hub. ring.
Qed.

Lemma sumsq_le_zero (us bs : list Q) :
  length us = length bs -> sumsq us bs <= 0 -> Forall2 Qeq us bs.
Proof.
  revert bs. induction us as [| u us IH]; intros [| b bs] Hl Hs;
    try discriminate; constructor.
  - unfold sumsq in Hs. cbn [map2 fold_right] in Hs.
    pose proof (sumsq_nonneg us bs) as Hn. unfold sumsq in Hn.
    pose proof (Qsquare_nonneg (u - b)) as Hq.
    assert (Hsq : (u - b) * (u - b) == 0) by lra.
    apply Qmult_integral in Hsq. destruct Hsq; lra.
  - apply IH; [cbn in Hl; lia |].
    unfold sumsq in *. cbn [map2 fold_right] in Hs.
    pose proof (Qsquare_nonneg (u - b)). lra.
Qed.

Lemma residual_sumsq (a : matrix) (w b : list Q) :
  residual a w b = sumsq (matvec a w) b.
Proof. reflexivity. Qed.

(** The coefficient vector that picks entry [k] of a feature row. *)
Lemma dot_select (k : nat) :
  forall a : list Q, dot a (repeat 0 k ++ [1]) == nth k a 0.
Proof.
  unfold dot. induction k as [| k IH]; intros [| x a];
    cbn [repeat app map2 fold_right nth]; try reflexivity.
  - destruct a; cbn [map2 fold_right]; ring.
  - rewrite IH. ring.
Qed.

Lemma quad_length (row row' : list Q) :
  length row = length row' ->
  length (flat_map (fun c => map (Qmult (nth c row 0)) (skipn c row))
            (seq 0 (length row)))
  = length (flat_map (fun c => map (Qmult (nth c row' 0)) (skipn c row'))
              (seq 0 (length row'))).
Proof.
  intros H. rewrite !length_flat_map, <- H. f_equal.
  apply map_ext. intros c. now rewrite !length_map, !length_skipn, H.
Qed.

Lemma feature_row_linear (row : list Q) (c : nat) :
  (c < length row)%nat ->
  nth (length (flat_map (fun k => map (Qmult (nth k row 0)) (skipn k row))
                 (seq 0 (length row))) + c)
      (feature_row row) 0
  = nth c row 0.
Proof.
  intros H. unfold feature_row.
  rewrite app_nth2_plus. now rewrite app_nth1.
Qed.

Lemma is_unclipped_iff (eps z : Q) :
  is_unclipped eps z = true <-> eps <= z /\ z <= 1 - eps.
Proof.
  unfold is_unclipped. rewrite andb_true_iff, !Qle_bool_iff. reflexivity.
Qed.

Lemma map2_keep_all {A : Type} (zero : A -> A) (mask : list bool) (xs : list A) :
  Forall (eq true) mask -> length mask = length xs ->
  map2 (fun (k : bool) (x : A) => if k then x else zero x) mask xs = xs.
Proof.
  intros H. revert xs. induction H as [| k mask <- _ IH]; intros [| x xs] Hl;
    try discriminate; cbn [map2]; [reflexivity |].
  now rewrite IH by (cbn in Hl; lia).
Qed.

Lemma map2_andb_all (l1 l2 : list bool) :
  Forall (eq true) l1 -> Forall (eq true) l2 -> Forall (eq true) (map2 andb l1 l2).
Proof.
  intros H. revert l2. induction H as [| k l1 <- _ IH]; intros l2 H2;
    cbn [map2]; [constructor |].
  destruct H2 as [| k2 l2 <- H2]; constructor; [reflexivity | now apply IH].
Qed.

Lemma Forall2_concat_Qeq (a b : matrix) :
  Forall2 Qlist_eq a b -> Qlist_eq (concat a) (concat b).
Proof.
  induction 1 as [| x y a b Hxy _ IH]; cbn [concat]; [constructor |].
  now apply Forall2_app.
Qed.

Lemma Qlist_eq_refl (l : list Q) : Qlist_eq l l.
Proof. induction l; constructor; [reflexivity | assumption]. Qed.

Lemma chunks_forall (P : Q -> Prop) (c n : nat) (l : list Q) :
  Forall P l -> Forall (Forall P) (chunks c n l).
Proof.
  revert l. induction n as [| n IH]; intros l H; cbn [chunks]; constructor;
    rewrite <- (firstn_skipn c l) in H; apply Forall_app in H;
    destruct H as [H1 H2]; [exact H1 | now apply IH].
Qed.

Lemma list_as_map_nth (row : list Q) :
  row = map (fun c => nth c row 0) (seq 0 (length row)).
Proof.
  apply (nth_ext _ _ 0 0).
  - now rewrite length_map, length_seq.
  - intros k Hk. rewrite (nth_map_lt _ _ 0%nat) by now rewrite length_seq.
    now rewrite seq_nth.
Qed.

Lemma numel_app (l : list nat) (c : nat) : numel (l ++ [c]) = (numel l * c)%nat.
Proof.
  unfold numel. induction l as [| d l IH]; cbn [app fold_right]; [lia |].
  rewrite IH. lia.
Qed.

Lemma last_dim_divides (t : tensor) (c : nat) :
  wf_tensor t -> last_dim t = Ok c -> (length (data t) mod c = 0)%nat.
Proof.
  unfold wf_tensor, last_dim. intros Hwf Hl.
  destruct (rev (shape t)) as [| c' l] eqn:E; [discriminate |].
  injection Hl as ->.
  apply (f_equal (@rev nat)) in E. rewrite rev_involutive in E.
  cbn [rev] in E. rewrite Hwf, E, numel_app.
  apply Nat.Div0.mod_mul.
Qed.

Lemma Qlist_eq_nth (r r' : list Q) (c : nat) :
  Qlist_eq r r' -> nth c r 0 == nth c r' 0.
Proof.
  intros H. revert c. induction H as [| x y r r' Hxy _ IH]; intros [| c];
    cbn [nth]; try reflexivity; [exact Hxy | apply IH].
Qed.

Lemma Forall2_index {A B : Type} (n : nat) (P : nat -> A -> B -> Prop)
    (l1 : list A) (l2 : list B) :
  length l1 = length l2 ->
  (forall c, (c < n)%nat -> Forall2 (P c) l1 l2) ->
  Forall2 (fun x y => forall c, (c < n)%nat -> P c x y) l1 l2.
Proof.
  revert l2. induction l1 as [| x l1 IH]; intros [| y l2] Hl H;
    try discriminate; constructor.
  - intros c Hc. specialize (H c Hc). now inversion H.
  - apply IH; [cbn in Hl; lia |].
    intros c Hc. specialize (H c Hc). now inversion H.
Qed.

Lemma Forall2_map_same (f g : nat -> Q) (l : list nat) :
  (forall c, In c l -> f c == g c) -> Qlist_eq (map f l) (map g l).
Proof.
  induction l as [| c l IH]; intros H; cbn [map]; constructor.
  - apply H. now left.
  - apply IH. intros k Hk. apply H. now right.
Qed.

Lemma forallb_map_true {A B : Type} (p : B -> bool) (g : A -> B) (l : list A) :
  (forall x, p (g x) = true) -> forallb p (map g l) = true.
Proof.
  intros H. induction l as [| x l IH]; cbn [map forallb]; [reflexivity |].
  now rewrite H, IH.
Qed.

Section IdentityFixedPoint.

Variable lstsq : matrix -> list Q -> list Q.
Variable eps : Q.
Variable c : nat.
Variable ref_mat : matrix.

Hypothesis eps_nonneg : 0 <= eps.
Hypothesis ref_rows : Forall (fun row => length row = c) ref_mat.
Hypothesis ref_unclipped : Forall (Forall (unclipped eps)) ref_mat.
Hypothesis lstsq_length : forall a b, length (lstsq a b) = num_features c.

(** The solver returns a least-squares solution of every system that
    [color_correct] builds from an image equal to the reference. *)
Hypothesis lstsq_least_squares :
  forall (m : matrix) (b : list Q) (k : nat) (w : list Q),
    Forall (fun row => length row = c) m -> (k < c)%nat ->
    Qlist_eq b (column 0 k m) ->
    residual (map feature_row m) (lstsq (map feature_row m) b) b
    <= residual (map feature_row m) w b.

Let mask0 : list (list bool) := map (map (is_unclipped eps)) ref_mat.

Lemma same_rows (m : matrix) :
  Forall2 Qlist_eq m ref_mat ->
  length m = length ref_mat
  /\ Forall (fun row => length row = c) m
  /\ Forall (Forall (unclipped eps)) m.
Proof.
  intros H. split; [eapply Forall2_length; exact H |].
  revert ref_rows ref_unclipped.
  induction H as [| x y m r Hxy _ IH]; intros Hr Hu;
    [split; constructor |].
  inversion Hr as [| ? ? Hy Hr']; subst.
  inversion Hu as [| ? ? Uy Hu']; subst.
  destruct (IH Hr' Hu') as [R U].
  split; constructor; try assumption.
  - symmetry. eapply Forall2_length. apply Forall2_flip.
    eapply Forall2_impl; [| exact Hxy]. intros a b Hab. exact Hab.
  - clear - Hxy Uy. induction Hxy as [| a b x y Hab _ IHx]; constructor.
    + inversion Uy; subst. unfold unclipped in *. lra.
    + inversion Uy; subst. now apply IHx.
Qed.

Lemma column_eq (m : matrix) (k : nat) :
  Forall2 Qlist_eq m ref_mat ->
  Qlist_eq (column 0 k ref_mat) (column 0 k m).
Proof.
  unfold column. intros H. clear - H.
  induction H as [| x y m r Hxy _ IH]; cbn [map]; [constructor |].
  constructor; [| exact IH].
  symmetry. now apply Qlist_eq_nth.
Qed.

Lemma lstsq_exact (m : matrix) (k : nat) :
  Forall2 Qlist_eq m ref_mat -> (k < c)%nat ->
  Qlist_eq
    (matvec (map feature_row m)
       (lstsq (map feature_row m) (column 0 k ref_mat)))
    (column 0 k ref_mat).
Proof.
  intros Hm Hk. destruct (same_rows Hm) as [Hl [Hr _]].
  set (b := column 0 k ref_mat).
  set (q := length (flat_map
               (fun j => map (Qmult (nth j (repeat 0 c) 0)) (skipn j (repeat 0 c)))
               (seq 0 (length (repeat 0 c))))).
  set (sel := repeat 0 (q + k) ++ [1]).
  assert (Hsel : sumsq (matvec (map feature_row m) sel) b == 0).
  { apply sumsq_zero. unfold matvec, b, column. rewrite map_map.
    clear - Hm Hr Hk. revert Hr.
    induction Hm as [| x y m r Hxy _ IH]; intros Hr; cbn [map];
      constructor.
    - inversion Hr as [| ? ? Hx _]; subst. unfold sel.
      rewrite dot_select. unfold q.
      rewrite (@quad_length (repeat 0 (length x)) x)
        by now rewrite repeat_length.
      rewrite feature_row_linear by exact Hk.
      now apply Qlist_eq_nth.
    - apply IH. now inversion Hr. }
  apply sumsq_le_zero.
  - unfold matvec, b, column. now rewrite !length_map.
  - rewrite <- Hsel, <- !residual_sumsq.
    apply lstsq_least_squares with (k := k); [exact Hr | exact Hk |].
    now apply column_eq.
Qed.

Lemma solve_channel_unmasked (m : matrix) (k : nat) :
  Forall2 Qlist_eq m ref_mat -> (k < c)%nat ->
  solve_channel lstsq eps (map feature_row m) mask0 m ref_mat k
  = Ok (lstsq (map feature_row m) (column 0 k ref_mat)).
Proof.
  intros Hm Hk. destruct (same_rows Hm) as [Hl [Hr Hu]].
  destruct (@solve_channel_same_rows lstsq eps (map feature_row m) mask0
              m ref_mat k) as [Hs Hlm].
  - unfold mask0. now rewrite length_map.
  - now symmetry.
  - apply length_map.
  - rewrite Hs. clear Hs.
    set (mask := map2 andb _ _) in *.
    assert (Hall : Forall (eq true) mask).
    { unfold mask. apply map2_andb_all; [apply map2_andb_all |].
      - unfold mask0, column. rewrite map_map.
        apply Forall_map, Forall_forall. intros row Hin.
        rewrite Forall_forall in ref_rows, ref_unclipped.
        rewrite (nth_map_lt _ _ 0) by (rewrite (ref_rows _ Hin); exact Hk).
        symmetry. apply is_unclipped_iff.
        pose proof (ref_unclipped _ Hin) as Hrow.
        rewrite Forall_forall in Hrow. apply Hrow, nth_In.
        now rewrite (ref_rows _ Hin).
      - unfold column. rewrite map_map.
        apply Forall_map, Forall_forall. intros row Hin.
        rewrite Forall_forall in Hr, Hu.
        symmetry. apply is_unclipped_iff.
        pose proof (Hu _ Hin) as Hrow.
        rewrite Forall_forall in Hrow. apply Hrow, nth_In.
        now rewrite (Hr _ Hin).
      - unfold column. rewrite map_map.
        apply Forall_map, Forall_forall. intros row Hin.
        rewrite Forall_forall in ref_rows, ref_unclipped.
        symmetry. apply is_unclipped_iff.
        pose proof (ref_unclipped _ Hin) as Hrow.
        rewrite Forall_forall in Hrow. apply Hrow, nth_In.
        now rewrite (ref_rows _ Hin). }
    pose proof (@map2_keep_all (list Q) (map (fun _ => 0)) mask
                  (map feature_row m) Hall) as K1.
    pose proof (@map2_keep_all Q (fun _ => 0) mask
                  (column 0 k ref_mat) Hall) as K2.
    cbv beta in K1, K2.
    rewrite K1 by (rewrite length_map; exact Hlm).
    rewrite K2 by (unfold column; rewrite length_map; congruence).
    reflexivity.
Qed.

Lemma correct_once_identity (m : matrix) :
  Forall2 Qlist_eq m ref_mat ->
  exists m',
    correct_once lstsq eps c mask0 ref_mat m = Ok m'
    /\ Forall2 Qlist_eq m' ref_mat.
Proof.
  intros Hm. destruct (same_rows Hm) as [Hl [Hr Hu]].
  unfold correct_once.
  set (W := fun k => lstsq (map feature_row m) (column 0 k ref_mat)).
  rewrite (@mapM_ok _ _ _ W).
  2:{ intros k Hk. apply in_seq in Hk. apply solve_channel_unmasked; [exact Hm | lia]. }
  cbn [bind].
  rewrite forallb_map_true
    by (intros k; apply Nat.eqb_eq; unfold W; apply lstsq_length).
  eexists. split; [reflexivity |].
  assert (HQ : Forall2 (fun mrow refrow =>
                 forall k, (k < c)%nat ->
                   dot (feature_row mrow) (W k) == nth k refrow 0)
               m ref_mat).
  { apply Forall2_index; [exact Hl |]. intros k Hk.
    pose proof (lstsq_exact Hm Hk) as E. fold (W k) in E.
    unfold matvec, column in E. rewrite map_map in E.
    clear - E. revert E. generalize (W k) as w. intros w.
    generalize ref_mat as r.
    induction m as [| x m' IH]; intros [| y r] E; cbn [map] in E;
      inversion E; subst; constructor; [assumption | now apply IH]. }
  rewrite map_map. clearbody W. clear Hm Hl Hr Hu.
  revert ref_rows ref_unclipped.
  induction HQ as [| mrow refrow m' r Hrow _ IH]; intros Rr Ru; cbn [map];
    constructor.
  - pose proof (Forall_inv Rr) as Lr. pose proof (Forall_inv Ru) as Ur.
    cbv beta in Lr.
    assert (E : refrow = map (fun k => nth k refrow 0) (seq 0 c))
      by (rewrite <- Lr; apply list_as_map_nth).
    rewrite map_map, E.
    apply Forall2_map_same. intros k Hk. apply in_seq in Hk.
    assert (Hu : unclipped eps (nth k refrow 0)).
    { rewrite Forall_forall in Ur. apply Ur, nth_In. lia. }
    unfold unclipped in Hu.
    rewrite <- (Hrow k) by lia.
    apply clip_id; rewrite (Hrow k) by lia; lra.
  - apply IH; [exact (Forall_inv_tail Rr) | exact (Forall_inv_tail Ru)].
Qed.

Lemma correct_loop_identity (n : nat) :
  forall m,
    Forall2 Qlist_eq m ref_mat ->
    exists m',
      correct_loop lstsq eps n c mask0 ref_mat m = Ok m'
      /\ Forall2 Qlist_eq m' ref_mat.
Proof.
  induction n as [| n IH]; intros m Hm; cbn [correct_loop].
  - now exists m.
  - destruct (correct_once_identity Hm) as [m1 [-> H1]]. cbn [bind].
    now apply IH.
Qed.

End IdentityFixedPoint.


(** A solver for one-channel images that always answers "the linear
    feature": it is a least-squares solution whenever the right-hand side
    is the image itself. *)
Lemma linear_feature_least_squares
    (m : matrix) (b : list Q) (k : nat) (w : list Q) :
  Forall (fun row => length row = 1%nat) m -> (k < 1)%nat ->
  Qlist_eq b (column 0 k m) ->
  residual (map feature_row m) [0; 1; 0] b
  <= residual (map feature_row m) w b.
Proof.
  intros Hr Hk Hb. rewrite !residual_sumsq.
  assert (Hz : sumsq (matvec (map feature_row m) [0; 1; 0]) b == 0).
  { apply sumsq_zero. assert (k = 0%nat) as -> by lia.
    unfold matvec, column in *. rewrite map_map.
    revert b Hb. induction Hr as [| row m Hrow _ IH]; intros b Hb;
      inversion Hb; subst; cbn [map]; constructor.
    - destruct row as [| v [| v' row]]; try discriminate.
      match goal with H : _ == nth 0 [v] 0 |- _ => rewrite H end.
      cbn. ring.
    - now apply IH. }
  rewrite Hz. apply sumsq_nonneg.
Qed.


(** ** Ray bundles *)

Lemma concat_repeat_length (b : list Q) (rep : nat) :
  length (concat (repeat b rep)) = (rep * length b)%nat.
Proof.
  induction rep as [| rep IH]; cbn [repeat concat]; [reflexivity |].
  rewrite length_app, IH. lia.
Qed.

Lemma tile_blocks_length (blk rep n : nat) (l : list Q) :
  length l = (n * blk)%nat ->
  length (tile_blocks blk rep n l) = (n * (rep * blk))%nat.
Proof.
  unfold tile_blocks. revert l.
  induction n as [| n IH]; intros l H; cbn [chunks flat_map]; [reflexivity |].
  rewrite length_app, concat_repeat_length, length_firstn.
  rewrite IH by (rewrite length_skipn; cbn in H; lia).
  cbn in H. nia.
Qed.

Lemma pad_groups_length (grp blk n : nat) (l : list Q) :
  length l = (n * grp)%nat ->
  length (pad_groups grp blk n l) = (n * (grp + blk))%nat.
Proof.
  unfold pad_groups. revert l.
  induction n as [| n IH]; intros l H; cbn [chunks flat_map]; [reflexivity |].
  rewrite !length_app, length_firstn, repeat_length.
  rewrite IH by (rewrite length_skipn; cbn in H; lia).
  cbn in H. nia.
Qed.

(** The strip appended after the last group is the final row. *)
Lemma pad_groups_tail (grp blk n : nat) (l : list Q) :
  (1 <= n)%nat -> length l = (n * grp)%nat ->
  skipn (n * (grp + blk) - blk) (pad_groups grp blk n l) = repeat 0 blk.
Proof.
  revert l. induction n as [| n IH]; intros l Hn H; [lia |].
  unfold pad_groups in *. cbn [chunks flat_map].
  assert (Hf : length (firstn grp l) = grp)
    by (rewrite length_firstn; cbn in H; lia).
  destruct n as [| n].
  - cbn [chunks flat_map]. rewrite app_nil_r.
    replace (1 * (grp + blk) - blk)%nat with (length (firstn grp l)) by lia.
    now rewrite skipn_app, skipn_all, Nat.sub_diag.
  - set (rest := flat_map (fun g => g ++ repeat 0 blk)
                   (chunks grp (S n) (skipn grp l))) in *.
    set (g0 := firstn grp l ++ repeat 0 blk).
    assert (Hg : length g0 = (grp + blk)%nat)
      by (unfold g0; rewrite length_app, repeat_length, Hf; lia).
    replace (S (S n) * (grp + blk) - blk)%nat
      with (length g0 + (S n * (grp + blk) - blk))%nat by lia.
    rewrite skipn_app.
    rewrite skipn_all2 by lia.
    replace (length g0 + (S n * (grp + blk) - blk) - length g0)%nat
      with (S n * (grp + blk) - blk)%nat by lia.
    cbn [app]. apply IH; [lia |].
    rewrite length_skipn. cbn in H |- *. lia.
Qed.

Lemma reshape_infer_ok (n k : nat) (rest : list nat) :
  numel rest <> 0%nat -> n = (k * numel rest)%nat ->
  reshape_infer n rest = Ok (k :: rest).
Proof.
  intros Hm ->. unfold reshape_infer.
  destruct (numel rest =? 0)%nat eqn:E; [apply Nat.eqb_eq in E; contradiction |].
  rewrite Nat.Div0.mod_mul, Nat.div_mul by exact Hm. reflexivity.
Qed.

Lemma tile_and_pad_ok (rep : nat) (t : tensor) (r l d2 : nat) (rest : list nat) :
  shape t = r :: l :: d2 :: rest -> wf_tensor t ->
  (1 <= rep)%nat -> (1 <= l)%nat -> numel (d2 :: rest) <> 0%nat ->
  tile_and_pad rep (rep * l) t
  = Ok (mkTensor ((r * (rep * l + 1))%nat :: d2 :: rest)
          (pad_groups (rep * l * numel (d2 :: rest)) (numel (d2 :: rest)) r
             (tile_blocks (numel (d2 :: rest)) rep (r * l) (data t)))).
Proof.
  intros Hs Hwf Hrep Hl Hblk. unfold tile_and_pad. rewrite Hs.
  set (blk := numel (d2 :: rest)) in *.
  assert (Hlen : length (data t) = (r * l * blk)%nat).
  { unfold wf_tensor in Hwf. rewrite Hwf, Hs. unfold blk.
    cbn [numel fold_right]. lia. }
  set (tiled := tile_blocks blk rep (r * l) (data t)).
  assert (Ht : length tiled = (r * l * (rep * blk))%nat)
    by (apply tile_blocks_length; exact Hlen).
  rewrite (@reshape_infer_ok (length tiled) (r * l * rep)%nat (d2 :: rest) Hblk)
    by (fold blk; lia).
  cbn [bind tl].
  rewrite (@reshape_infer_ok (length tiled) r ((rep * l)%nat :: d2 :: rest)).
  2:{ change (numel ((rep * l)%nat :: d2 :: rest)) with (rep * l * blk)%nat. nia. }
  2:{ change (numel ((rep * l)%nat :: d2 :: rest)) with (rep * l * blk)%nat. nia. }
  cbn [bind hd].
  set (padded := pad_groups (rep * l * blk) blk r tiled).
  assert (Hp : length padded = (r * (rep * l * blk + blk))%nat)
    by (apply pad_groups_length; nia).
  rewrite (@reshape_infer_ok (length padded) (r * (rep * l + 1))%nat (d2 :: rest) Hblk)
    by (fold blk; nia).
  reflexivity.
Qed.



(** * Further properties *)

(** ** Metric conversions and the sinebow colormap *)

Section MetricFacts.

Import Metrics.
Local Open Scope R_scope.

Lemma ln10_pos : 0 < ln 10.
Proof. rewrite <- ln_1. apply ln_increasing; lra. Qed.

(** The two PSNR conversions undo each other: on every positive MSE one
    way, on every PSNR the other way. *)
Theorem psnr_mse_round_trip (mse psnr : R) :
  0 < mse ->
  psnr_to_mse (mse_to_psnr mse) = mse
  /\ mse_to_psnr (psnr_to_mse psnr) = psnr.
Proof.
  intros Hm. pose proof ln10_pos as H10.
  unfold psnr_to_mse, mse_to_psnr. split.
  - replace (- (1 / 10) * ln 10 * (- 10 / ln 10 * ln mse)) with (ln mse)
      by (field; lra).
    now apply exp_ln.
  - rewrite ln_exp. field. lra.
Qed.

Lemma psnr_mse_round_trip_witness :
  psnr_to_mse (mse_to_psnr (1 / 100)) = 1 / 100
  /\ mse_to_psnr (psnr_to_mse 20) = 20.
Proof.
  apply psnr_mse_round_trip. lra.
Defined.

(** A smaller error is a larger PSNR, and an MSE of [10^-k] is [10 k]
    decibels (0 at an MSE of 1). *)
Theorem mse_to_psnr_decreasing (a b : R) (k : nat) :
  0 < a -> a < b ->
  mse_to_psnr b < mse_to_psnr a
  /\ mse_to_psnr (/ 10 ^ k) = 10 * INR k.
Proof.
  intros Ha Hab. pose proof ln10_pos as H10.
  unfold mse_to_psnr. split.
  - pose proof (ln_increasing a b Ha Hab) as Hln.
    assert (Hc : 0 < 10 / ln 10) by (apply Rdiv_lt_0_compat; lra).
    replace (- 10 / ln 10 * ln b) with (- (10 / ln 10 * ln b)) by (field; lra).
    replace (- 10 / ln 10 * ln a) with (- (10 / ln 10 * ln a)) by (field; lra).
    apply Ropp_lt_contravar. now apply Rmult_lt_compat_l.
  - assert (Hp : 0 < 10 ^ k) by (apply pow_lt; lra).
    rewrite ln_Rinv by exact Hp. rewrite ln_pow by lra. field. lra.
Qed.

Lemma mse_to_psnr_decreasing_witness :
  mse_to_psnr 1 < mse_to_psnr (1 / 2)
  /\ mse_to_psnr (/ 10 ^ 3) = 10 * INR 3.
Proof.
  apply mse_to_psnr_decreasing; lra.
Defined.

(** SSIM and DSSIM convert into each other without loss, and an SSIM in
    [[-1, 1]] is a DSSIM in [[0, 1]]. *)
Theorem ssim_dssim_round_trip (ssim dssim : R) :
  dssim_to_ssim (ssim_to_dssim ssim) = ssim
  /\ ssim_to_dssim (dssim_to_ssim dssim) = dssim
  /\ (-1 <= ssim <= 1 -> 0 <= ssim_to_dssim ssim <= 1).
Proof.
  unfold dssim_to_ssim, ssim_to_dssim. repeat split; lra.
Qed.

Lemma ssim_dssim_round_trip_witness :
  -1 <= 1 / 2 <= 1 /\ 0 <= ssim_to_dssim (1 / 2) <= 1.
Proof.
  split; [lra |].
  destruct (ssim_dssim_round_trip (1 / 2) 0) as (_ & _ & H).
  apply H. lra.
Defined.

Lemma sinebow_f_shift (x : R) : sinebow_f (x + 1) = sinebow_f x.
Proof.
  unfold sinebow_f.
  replace (PI * (x + 1)) with (PI * x + PI) by ring.
  rewrite neg_sin. ring.
Qed.

Lemma sinebow_f_unit (x : R) : 0 <= sinebow_f x <= 1.
Proof.
  unfold sinebow_f. pose proof (SIN_bound (PI * x)) as [H1 H2]. nra.
Qed.

Lemma sin2_three_phases (a : R) :
  sin a ^ 2 + sin (a + PI / 3) ^ 2 + sin (a + 2 * (PI / 3)) ^ 2 = 3 / 2.
Proof.
  rewrite !sin_plus, sin_PI3, cos_PI3, sin_2PI3, cos_2PI3.
  pose proof (sin2_cos2 a) as Hsc. unfold Rsqr in Hsc.
  assert (H3 : sqrt 3 * sqrt 3 = 3) by (apply sqrt_sqrt; lra).
  set (s := sin a) in *. set (c := cos a) in *. set (r := sqrt 3) in *.
  assert (E : forall u v w : R,
            u ^ 2 + (u * (1 / 2) + v * (w / 2)) ^ 2
              + (u * (-1 / 2) + v * (w / 2)) ^ 2
            = 3 / 2 * (u * u) + (w * w) / 2 * (v * v))
    by (intros; field).
  rewrite E, H3. lra.
Qed.

(** [sinebow] is cyclic with period 1 in the hue, every channel lies in
    [[0, 1]], and the three channels always add up to 3/2. *)
Theorem sinebow_cyclic_uniform (h : R) :
  sinebow (h - 1) = sinebow h
  /\ Forall (fun v => 0 <= v <= 1) (sinebow h)
  /\ fold_right Rplus 0 (sinebow h) = 3 / 2.
Proof.
  unfold sinebow. split; [| split].
  - replace (3 / 6 - (h - 1)) with (3 / 6 - h + 1) by lra.
    replace (5 / 6 - (h - 1)) with (5 / 6 - h + 1) by lra.
    replace (7 / 6 - (h - 1)) with (7 / 6 - h + 1) by lra.
    now rewrite !sinebow_f_shift.
  - repeat (constructor; [apply sinebow_f_unit |]). constructor.
  - cbn [fold_right]. unfold sinebow_f.
    pose proof (sin2_three_phases (PI * (3 / 6 - h))) as H.
    replace (PI * (5 / 6 - h)) with (PI * (3 / 6 - h) + PI / 3) by field.
    replace (PI * (7 / 6 - h)) with (PI * (3 / 6 - h) + 2 * (PI / 3)) by field.
    lra.
Qed.

End MetricFacts.

(** ** More on the colour-space conversions *)

Section ColorSpaceRange.

Import ColorSpace.
Local Open Scope R_scope.

Lemma Rpower_one (y : R) : Rpower 1 y = 1.
Proof. unfold Rpower. rewrite ln_1, Rmult_0_r. apply exp_0. Qed.

Lemma Rpower_le_one (x y : R) : 0 < x -> x <= 1 -> 0 <= y -> Rpower x y <= 1.
Proof.
  intros Hx H1 Hy. rewrite <- (Rpower_one y). apply Rle_Rpower_l; lra.
Qed.

(** A lower bound on [x^(5/12)] from a rational [q] with [q^12 < x^5]. *)
Lemma Rpower_5_12_lower (x q : R) :
  0 < x -> 0 <= q -> q ^ 12 < x ^ 5 -> q < Rpower x (5 / 12).
Proof.
  intros Hx Hq H.
  destruct (Rlt_le_dec q (Rpower x (5 / 12))) as [Hlt | Hle]; [exact Hlt |].
  exfalso. pose proof (Rpower_pos x (5 / 12)) as Hp.
  assert (Rpower x (5 / 12) ^ 12 <= q ^ 12) by (apply pow_incr; lra).
  rewrite (Rpower_5_12_pow Hx) in *. lra.
Qed.

Lemma Rpower_5_12_upper (x q : R) :
  0 < x -> x ^ 5 < q ^ 12 -> 0 <= q -> Rpower x (5 / 12) < q.
Proof.
  intros Hx H Hq.
  destruct (Rlt_le_dec (Rpower x (5 / 12)) q) as [Hlt | Hle]; [exact Hlt |].
  exfalso.
  assert (q ^ 12 <= Rpower x (5 / 12) ^ 12) by (apply pow_incr; lra).
  rewrite (Rpower_5_12_pow Hx) in *. lra.
Qed.

(** Both conversions keep [[0, 1]] inside [[0, 1]] and fix its two ends. *)
Theorem srgb_conversions_keep_unit_interval (eps x : R) :
  eps <= 0.0031308 -> 0 <= x <= 1 ->
  0 <= linear_to_srgb eps x <= 1
  /\ 0 <= srgb_to_linear eps x <= 1
  /\ linear_to_srgb eps 0 = 0 /\ linear_to_srgb eps 1 = 1
  /\ srgb_to_linear eps 0 = 0 /\ srgb_to_linear eps 1 = 1.
Proof.
  intros Heps [H0 H1]. unfold linear_to_srgb, srgb_to_linear.
  repeat split.
  - destruct (Rle_dec x 0.0031308) as [l | n]; [lra |].
    rewrite Rmax_right by lra.
    assert (Hx : 0 < x) by lra.
    assert (Hq : 11 / 211 < Rpower x (5 / 12)).
    { apply Rpower_5_12_lower; [exact Hx | lra |].
      assert (0.0031308 ^ 5 <= x ^ 5) by (apply pow_incr; lra). lra. }
    lra.
  - destruct (Rle_dec x 0.0031308) as [l | n]; [lra |].
    rewrite Rmax_right by lra.
    pose proof (@Rpower_le_one x (5 / 12)). lra.
  - destruct (Rle_dec x 0.04045) as [l | n]; [lra |].
    pose proof (Rpower_pos (Rmax eps ((200 * x + 11) / 211)) (12 / 5)). lra.
  - destruct (Rle_dec x 0.04045) as [l | n]; [lra |].
    rewrite Rmax_right by lra.
    apply Rpower_le_one; lra.
  - destruct (Rle_dec 0 0.0031308); lra.
  - destruct (Rle_dec 1 0.0031308); [lra |].
    rewrite Rmax_right by lra. rewrite Rpower_one. lra.
  - destruct (Rle_dec 0 0.04045); lra.
  - destruct (Rle_dec 1 0.04045); [lra |].
    replace ((200 * 1 + 11) / 211) with 1 by lra.
    rewrite Rmax_right by lra. apply Rpower_one.
Qed.

Lemma srgb_conversions_keep_unit_interval_witness :
  0 <= linear_to_srgb default_eps (1 / 2) <= 1
  /\ 0 <= srgb_to_linear default_eps (1 / 2) <= 1.
Proof.
  assert (He : default_eps <= 0.0031308) by (unfold default_eps; lra).
  assert (Hx : 0 <= 1 / 2 <= 1) by lra.
  destruct (@srgb_conversions_keep_unit_interval default_eps (1 / 2) He Hx)
    as [A [B _]].
  split; [exact A | exact B].
Defined.

(** The encoding is not monotone: just above the breakpoint 0.0031308 it
    is below its value at the breakpoint, by less than 1e-6. *)
Theorem linear_to_srgb_steps_down_at_breakpoint (eps x : R) :
  eps <= 0.0031308 -> 0.0031308 < x <= 0.003130801 ->
  linear_to_srgb eps 0.0031308 - 1 / 1000000 < linear_to_srgb eps x
  /\ linear_to_srgb eps x < linear_to_srgb eps 0.0031308.
Proof.
  intros Heps [Hlo Hhi]. unfold linear_to_srgb.
  destruct (Rle_dec 0.0031308 0.0031308) as [_ | n]; [| lra].
  destruct (Rle_dec x 0.0031308) as [l | _]; [lra |].
  rewrite Rmax_right by lra.
  assert (Hx : 0 < x) by lra. split.
  - assert (Hq : (200 * 0.040448936 + 11) / 211 < Rpower x (5 / 12)).
    { apply Rpower_5_12_lower; [exact Hx | lra |].
      assert (0.0031308 ^ 5 <= x ^ 5) by (apply pow_incr; lra). lra. }
    lra.
  - assert (Hq : Rpower x (5 / 12) < (200 * 0.040449936 + 11) / 211).
    { apply Rpower_5_12_upper; [exact Hx | | lra].
      assert (x ^ 5 <= 0.003130801 ^ 5) by (apply pow_incr; lra). lra. }
    lra.
Qed.

Lemma linear_to_srgb_steps_down_at_breakpoint_witness :
  linear_to_srgb default_eps 0.003130801
  < linear_to_srgb default_eps 0.0031308.
Proof.
  assert (He : default_eps <= 0.0031308) by (unfold default_eps; lra).
  assert (Hx : 0.0031308 < 0.003130801 <= 0.003130801) by lra.
  exact (proj2 (@linear_to_srgb_steps_down_at_breakpoint default_eps
                  0.003130801 He Hx)).
Defined.

End ColorSpaceRange.

(** ** More on weighted percentiles *)

(** A weight array shorter (or longer) than the values acts exactly like
    the array of the values' length obtained by reading it cyclically: in
    particular a single weight is a uniform weighting. *)
Theorem weighted_percentile_cyclic_weights (x weight : tensor) (ps : list Q) :
  data weight <> [] ->
  weighted_percentile x weight ps false
  = weighted_percentile x
      (vec (map (fun i => nth (i mod length (data weight)) (data weight) 0)
                (seq 0 (length (data x)))))
      ps false.
Proof.
  intros Hw. unfold weighted_percentile. cbn [data vec].
  set (m := length (data weight)). set (n := length (data x)).
  set (cyc := map (fun i => nth (i mod m) (data weight) 0) (seq 0 n)).
  rewrite (sort_and_permute_ok _ Hw). fold m.
  destruct (data x) as [| x0 xs] eqn:Ex.
  - reflexivity.
  - assert (Hc : cyc <> []) by (unfold cyc, n; discriminate).
    rewrite (sort_and_permute_ok _ Hc).
    assert (Lc : length cyc = n) by (unfold cyc; now rewrite length_map, length_seq).
    rewrite Lc.
    replace (map (fun i => nth (i mod n) cyc 0) (argsort (x0 :: xs)))
      with (map (fun i => nth (i mod m) (data weight) 0) (argsort (x0 :: xs)));
      [reflexivity |].
    apply map_ext_in. intros i Hi. apply argsort_in_range in Hi. fold n in Hi.
    rewrite (Nat.mod_small i n Hi). unfold cyc.
    rewrite (nth_map_lt _ _ 0%nat) by now rewrite length_seq.
    now rewrite seq_nth.
Qed.

Lemma weighted_percentile_cyclic_weights_witness :
  weighted_percentile (vec [3; 1; 2]) (vec [5]) [50] false
  = weighted_percentile (vec [3; 1; 2]) (vec [5; 5; 5]) [50] false.
Proof.
  assert (H : data (vec [5]) <> []) by discriminate.
  exact (@weighted_percentile_cyclic_weights (vec [3; 1; 2]) (vec [5]) [50] H).
Defined.

Lemma insert_idx_head (key : nat -> Q) (i : nat) (l : list nat) :
  Forall (fun j => key i <= key j) l -> insert_idx key i l = i :: l.
Proof.
  intros H. destruct l as [| j l]; [reflexivity |]. cbn [insert_idx].
  now rewrite (Qle_bool_true (Forall_inv H)).
Qed.

Lemma argsort_of_increasing (key : nat -> Q) (n : nat) :
  forall s,
    (forall i j, (s <= i)%nat -> (i < j)%nat -> (j < s + n)%nat -> key i < key j) ->
    fold_right (insert_idx key) [] (seq s n) = seq s n.
Proof.
  induction n as [| n IH]; intros s H; [reflexivity |].
  cbn [seq fold_right].
  rewrite IH by (intros i j Hi Hij Hj; apply H; lia).
  apply insert_idx_head, Forall_forall. intros j Hj. apply in_seq in Hj.
  apply Qlt_le_weak, H; lia.
Qed.

(** The strict order of consecutive elements, as [assume_sorted] expects. *)
Lemma increasing_nth (x : list Q) :
  StronglySorted Qlt x ->
  forall i j, (i < j)%nat -> (j < length x)%nat -> nth i x 0 < nth j x 0.
Proof.
  induction 1 as [| a x Hs IH Ha]; intros i j Hij Hj; [cbn in Hj; lia |].
  destruct j as [| j]; [lia |]. cbn [length] in Hj.
  destruct i as [| i]; cbn [nth].
  - rewrite Forall_forall in Ha. apply Ha, nth_In. lia.
  - apply IH; lia.
Qed.

(** On values that are already strictly increasing, with as many weights
    as values, sorting changes nothing: [assume_sorted] only saves the
    sort. *)
Theorem weighted_percentile_assume_sorted (x weight : tensor) (ps : list Q) :
  StronglySorted Qlt (data x) -> length (data weight) = length (data x) ->
  weighted_percentile x weight ps false = weighted_percentile x weight ps true.
Proof.
  intros Hs Hl. unfold weighted_percentile.
  destruct (data x) as [| x0 xs] eqn:Ex.
  - destruct (data weight); [reflexivity | discriminate].
  - assert (Hw : data weight <> [])
      by (destruct (data weight); [discriminate | discriminate]).
    rewrite (sort_and_permute_ok _ Hw).
    assert (Ha : argsort (x0 :: xs) = seq 0 (length (x0 :: xs))).
    { unfold argsort. apply argsort_of_increasing.
      intros i j _ Hij Hj. apply increasing_nth; [exact Hs | exact Hij | lia]. }
    rewrite Ha, <- list_as_map_nth.
    replace (map (fun i => nth (i mod length (data weight)) (data weight) 0)
               (seq 0 (length (x0 :: xs))))
      with (data weight); [reflexivity |].
    rewrite <- Hl. rewrite (list_as_map_nth (data weight)) at 1.
    apply map_ext_in. intros i Hi. apply in_seq in Hi.
    now rewrite Nat.mod_small by lia.
Qed.

Lemma weighted_percentile_assume_sorted_witness :
  weighted_percentile (vec [1; 2; 4]) (vec [3; 1; 1]) [25; 75] false
  = weighted_percentile (vec [1; 2; 4]) (vec [3; 1; 1]) [25; 75] true.
Proof.
  apply weighted_percentile_assume_sorted; [| reflexivity].
  repeat constructor.
Defined.

(** Without values there is no last cumulative weight: the call raises
    [IndexError] whatever the (non-empty) weights and percentiles are, and
    so does a call that skips the sort with no weights. *)
Theorem weighted_percentile_empty (x weight : tensor) (ps : list Q) :
  (data x = [] -> data weight <> [] ->
   weighted_percentile x weight ps false = Err IndexError)
  /\ (data weight = [] ->
      weighted_percentile x weight ps true = Err IndexError).
Proof.
  split.
  - intros Hx Hw. unfold weighted_percentile.
    rewrite (sort_and_permute_ok _ Hw), Hx. reflexivity.
  - intros Hw. unfold weighted_percentile. now rewrite Hw.
Qed.

Lemma weighted_percentile_empty_witness :
  weighted_percentile (vec []) (vec [1]) [50] false = Err IndexError
  /\ weighted_percentile (vec [1]) (vec []) [50] true = Err IndexError.
Proof.
  split.
  - apply (proj1 (weighted_percentile_empty (vec []) (vec [1]) [50]));
      [reflexivity | discriminate].
  - apply (proj2 (weighted_percentile_empty (vec [1]) (vec []) [50])).
    reflexivity.
Defined.

(** ** More on matting *)

Lemma blend_in_unit (v a b : Q) :
  in_unit v -> in_unit a -> in_unit b -> in_unit (v * a + b * (1 - a)).
Proof.
  unfold in_unit. intros [V0 V1] [A0 A1] [B0 B1].
  assert (H1 : 0 <= v * a) by (apply Qmult_le_0_compat; assumption).
  assert (H2 : 0 <= b * (1 - a)) by (apply Qmult_le_0_compat; lra).
  assert (H3 : v * a <= 1 * a) by (apply Qmult_le_compat_r; assumption).
  assert (H4 : b * (1 - a) <= 1 * (1 - a)) by (apply Qmult_le_compat_r; lra).
  lra.
Qed.

Lemma over_in_unit (c : nat) (alpha : list Q) :
  forall rgb bg,
    Forall in_unit rgb -> Forall in_unit alpha -> Forall in_unit bg ->
    Forall in_unit (over c rgb alpha bg).
Proof.
  induction alpha as [| a alpha IH]; intros rgb bg Hr Ha Hb; cbn [over];
    [constructor |].
  destruct bg as [| b bg]; [constructor |].
  rewrite <- (firstn_skipn c rgb) in Hr. apply Forall_app in Hr.
  destruct Hr as [Hr1 Hr2].
  apply Forall_app. split.
  - apply Forall_map. eapply Forall_impl; [| exact Hr1].
    intros v Hv. apply blend_in_unit;
      [exact Hv | exact (Forall_inv Ha) | exact (Forall_inv Hb)].
  - apply IH; [exact Hr2 | exact (Forall_inv_tail Ha) | exact (Forall_inv_tail Hb)].
Qed.

Lemma matte_in_unit
    (vis acc : tensor) (dark light : Q) (width h w c : nat) :
  shape acc = [h; w] -> shape vis = [h; w; c] -> (0 < width)%nat ->
  in_unit dark -> in_unit light ->
  Forall in_unit (data vis) -> Forall in_unit (data acc) ->
  exists out,
    matte vis acc dark light width = Ok out /\ Forall in_unit (data out).
Proof.
  intros Hacc Hvis Hw Hd Hl Fv Fa.
  unfold matte, checkerboard. rewrite Hacc, !(stripe_ok _ Hw), Hvis.
  cbn [bind]. rewrite !Nat.eqb_refl. cbn [andb].
  eexists. split; [reflexivity |]. cbn [data].
  apply over_in_unit; [exact Fv | exact Fa |].
  apply Forall_map, Forall_forall. intros m _. now destruct m.
Qed.

(** Matting an image with values in [[0, 1]] by an accumulation in
    [[0, 1]] over a checkerboard with shades in [[0, 1]] gives values in
    [[0, 1]]. *)
Theorem matte_keeps_unit_interval
    (vis acc : tensor) (dark light : Q) (width h w c : nat) :
  shape acc = [h; w] -> shape vis = [h; w; c] -> (0 < width)%nat ->
  in_unit dark -> in_unit light ->
  Forall in_unit (data vis) -> Forall in_unit (data acc) ->
  exists out,
    matte vis acc dark light width = Ok out /\ Forall in_unit (data out).
Proof. apply matte_in_unit. Qed.

Lemma matte_keeps_unit_interval_witness :
  exists out,
    matte (mkTensor [1; 2; 1]%nat [1; 1 # 3]) (mkTensor [1; 2]%nat [0; 1 # 2])
      matte_dark matte_light matte_width = Ok out
    /\ Forall in_unit (data out).
Proof.
  apply (@matte_keeps_unit_interval _ _ _ _ _ 1%nat 2%nat 1%nat);
    try reflexivity.
  - unfold matte_width. lia.
  - split; discriminate.
  - split; discriminate.
  - repeat constructor; discriminate.
  - repeat constructor; discriminate.
Defined.

Lemma parity_next_tile (n : nat) :
  ((S n mod 2 =? 1) = negb (n mod 2 =? 1))%nat.
Proof.
  pose proof (Nat.mod_upper_bound n 2 ltac:(lia)) as H.
  replace (S n) with (n + 1)%nat by lia.
  rewrite Nat.Div0.add_mod.
  destruct (n mod 2)%nat as [| [| ?]]; [reflexivity | reflexivity | lia].
Qed.

(** The background is made of square tiles of side [width]: two pixels of
    one tile have the same shade, and of a pixel and the pixel one tile
    further down (or to the right) one is dark and the other light. *)
Theorem checkerboard_tiles
    (h w : nat) (dark light : Q) (width : nat) (bg : list Q) (r c r' c' : nat) :
  (0 < width)%nat -> checkerboard h w dark light width = Ok bg ->
  (r < h)%nat -> (c < w)%nat ->
  let shade i j := nth (i * w + j) bg 0 in
  let swapped x y := (x = dark /\ y = light) \/ (x = light /\ y = dark) in
  ((r' < h)%nat -> (c' < w)%nat ->
   (r / width = r' / width)%nat -> (c / width = c' / width)%nat ->
   shade r' c' = shade r c)
  /\ ((r + width < h)%nat -> swapped (shade r c) (shade (r + width)%nat c))
  /\ ((c + width < w)%nat -> swapped (shade r c) (shade r (c + width)%nat)).
Proof.
  intros Hw Hbg Hr Hc shade swapped.
  destruct (checkerboard_ok h w dark light Hw) as [bg' [Hbg' [_ Hn]]].
  rewrite Hbg in Hbg'. injection Hbg' as <-.
  assert (Hnext : forall n, ((n + width) / width = S (n / width))%nat).
  { intros n. replace (n + width)%nat with (n + 1 * width)%nat by lia.
    rewrite Nat.div_add by lia. lia. }
  unfold shade, swapped. split; [| split].
  - intros Hr' Hc' Er Ec. rewrite !Hn by assumption.
    unfold checker_value. now rewrite Er, Ec.
  - intros Hr2. rewrite !Hn by assumption. unfold checker_value.
    rewrite Hnext. pose proof (parity_next_tile (r / width)) as P. revert P.
    destruct (S (r / width) mod 2 =? 1)%nat, ((r / width) mod 2 =? 1)%nat,
      ((c / width) mod 2 =? 1)%nat; cbn; intros P; try discriminate P; auto.
  - intros Hc2. rewrite !Hn by assumption. unfold checker_value.
    rewrite Hnext. pose proof (parity_next_tile (c / width)) as P. revert P.
    destruct (S (c / width) mod 2 =? 1)%nat, ((r / width) mod 2 =? 1)%nat,
      ((c / width) mod 2 =? 1)%nat; cbn; intros P; try discriminate P; auto.
Qed.

Lemma checkerboard_tiles_witness :
  exists bg,
    checkerboard 16 16 matte_dark matte_light matte_width = Ok bg
    /\ nth (7 * 16 + 7) bg 0 = nth (0 * 16 + 0) bg 0
    /\ ((nth (0 * 16 + 0) bg 0 = matte_dark
         /\ nth ((0 + matte_width) * 16 + 0) bg 0 = matte_light)
        \/ (nth (0 * 16 + 0) bg 0 = matte_light
            /\ nth ((0 + matte_width) * 16 + 0) bg 0 = matte_dark)).
Proof.
  assert (Hw : (0 < matte_width)%nat) by (unfold matte_width; lia).
  destruct (checkerboard_ok 16 16 matte_dark matte_light Hw) as [bg [Hbg _]].
  exists bg. split; [exact Hbg |].
  assert (H0 : (0 < 16)%nat) by lia.
  destruct (@checkerboard_tiles 16 16 matte_dark matte_light matte_width bg
              0 0 7 7 Hw Hbg H0 H0) as [Hsame [Hdown _]].
  split.
  - apply Hsame; [lia | lia | reflexivity | reflexivity].
  - apply Hdown. unfold matte_width. lia.
Defined.

(** ** More on colormap visualisation *)



(** With both bounds given and not zero, [percentile] has no effect. *)
Theorem visualize_cmap_explicit_bounds
    (value weight : tensor) (colormap : option (Q -> list Q))
    (lo hi percentile percentile' : Q) (curve_fn : Q -> Q)
    (modulus : option Q) (matte_background : bool) :
  ~ lo == 0 -> ~ hi == 0 ->
  visualize_cmap value weight colormap (Some lo) (Some hi) percentile
    curve_fn modulus matte_background
  = visualize_cmap value weight colormap (Some lo) (Some hi) percentile'
      curve_fn modulus matte_background.
Proof.
  intros Hlo Hhi. unfold visualize_cmap.
  destruct (weighted_percentile_pair_cases value weight) as [Hok | [e He]].
  - destruct (Hok (50 - percentile / 2) (50 + percentile / 2)) as [a [b ->]].
    destruct (Hok (50 - percentile' / 2) (50 + percentile' / 2))
      as [a' [b' ->]].
    cbn [bind]. unfold py_or.
    rewrite (truthy_nonzero Hlo), (truthy_nonzero Hhi). reflexivity.
  - now rewrite !He.
Qed.

Lemma visualize_cmap_explicit_bounds_witness :
  visualize_cmap (mkTensor [1; 2]%nat [1 # 4; 3 # 4]) (mkTensor [1; 2]%nat [1; 1])
    (Some (fun v => [v; v; v; 1])) (Some (1 # 10)) (Some 1) 99 (fun x => x)
    None false
  = visualize_cmap (mkTensor [1; 2]%nat [1 # 4; 3 # 4]) (mkTensor [1; 2]%nat [1; 1])
      (Some (fun v => [v; v; v; 1])) (Some (1 # 10)) (Some 1) 50 (fun x => x)
      None false.
Proof.
  apply visualize_cmap_explicit_bounds; discriminate.
Defined.

Lemma normalize_in_unit (lo hi v : Q) : in_unit (normalize lo hi v).
Proof.
  unfold normalize.
  destruct (Qeq_bool (Qabs (hi - lo)) 0); [| apply clip_in_unit].
  destruct (Qlt_bool 0 (v - Qmin lo hi)); split; discriminate.
Qed.

(** [(x mod m) / m] is the fractional part of [x / m]. *)
Lemma torch_mod_fraction (x m : Q) :
  ~ m == 0 -> 0 <= torch_mod x m / m /\ torch_mod x m / m < 1.
Proof.
  intros Hm. unfold torch_mod.
  assert (E : (x - inject_Z (Qfloor (x / m)) * m) / m
              == x / m - inject_Z (Qfloor (x / m))) by (field; exact Hm).
  rewrite E. pose proof (Qfloor_le (x / m)) as H1.
  pose proof (Qlt_floor (x / m)) as H2. rewrite inject_Z_plus in H2.
  change (inject_Z 1) with 1 in H2. split; lra.
Qed.

(** Without a colormap and without matting, whatever the bounds, the curve
    and the modulus are, a returned image has the shape of [value] and
    all its elements in [[0, 1]]. *)
Theorem visualize_cmap_normalizes
    (value weight : tensor) (lo hi : option Q) (percentile : Q)
    (curve_fn : Q -> Q) (modulus : option Q) (out : tensor) :
  visualize_cmap value weight None lo hi percentile curve_fn modulus false
    = Ok out ->
  shape out = shape value
  /\ length (data out) = length (data value)
  /\ Forall in_unit (data out).
Proof.
  unfold visualize_cmap.
  destruct (weighted_percentile _ _ _ _) as [[| a [| b [| c r]]] | e];
    cbn [bind]; try discriminate.
  unfold check_three_channels.
  destruct (negb (length (shape value) =? 3)%nat); [discriminate |].
  destruct (negb (last (shape value) 0 =? 3)%nat); [discriminate |].
  cbn [bind]. intros [= <-]. cbn [shape data].
  split; [reflexivity |].
  destruct modulus as [m |].
  - destruct (truthy (Some m)) eqn:Et.
    + split; [now rewrite !length_map |].
      apply Forall_map, Forall_map, Forall_forall. intros x _.
      assert (Hm : ~ m == 0).
      { intros E. rewrite (truthy_zero E) in Et. discriminate. }
      destruct (torch_mod_fraction (curve_fn x) Hm) as [H0 H1].
      split; [exact H0 | lra].
    + split; [now rewrite !length_map |].
      apply Forall_map, Forall_map, Forall_forall. intros x _.
      apply normalize_in_unit.
  - split; [now rewrite !length_map |].
    apply Forall_map, Forall_map, Forall_forall. intros x _.
    apply normalize_in_unit.
Qed.

Lemma visualize_cmap_normalizes_witness :
  exists out,
    visualize_cmap (mkTensor [1; 1; 3]%nat [5; 7; 9]) (mkTensor [1; 1]%nat [1])
      None None None 99 (fun x => x) None false = Ok out
    /\ Forall in_unit (data out).
Proof.
  eexists. split; [vm_compute; reflexivity |].
  eapply (@visualize_cmap_normalizes (mkTensor [1; 1; 3]%nat [5; 7; 9])
            (mkTensor [1; 1]%nat [1]) None None 99 (fun x => x) None).
  vm_compute. reflexivity.
Defined.

Lemma clip_compat (x y : Q) : x == y -> clip x 0 1 == clip y 0 1.
Proof.
  intros H. unfold clip.
  apply Q.min_compat; [| reflexivity]. apply Q.max_compat; [exact H | reflexivity].
Qed.

Lemma Qle_bool_compat (a a' b b' : Q) :
  a == a' -> b == b' -> Qle_bool a b = Qle_bool a' b'.
Proof.
  intros Ha Hb.
  destruct (Qle_bool a b) eqn:E, (Qle_bool a' b') eqn:E'; try reflexivity.
  - apply Qle_bool_iff in E. rewrite Ha, Hb in E.
    apply Qle_bool_iff in E. congruence.
  - apply Qle_bool_iff in E'. rewrite <- Ha, <- Hb in E'.
    apply Qle_bool_iff in E'. congruence.
Qed.

(** The scaling does not see which bound is which. *)
Lemma normalize_swap (lo hi v : Q) : normalize lo hi v == normalize hi lo v.
Proof.
  unfold normalize. rewrite (Qabs_Qminus hi lo).
  assert (Hmin : Qmin lo hi == Qmin hi lo) by apply Q.min_comm.
  destruct (Qeq_bool (Qabs (lo - hi)) 0).
  - unfold Qlt_bool.
    rewrite (@Qle_bool_compat (v - Qmin lo hi) (v - Qmin hi lo) 0 0)
      by (rewrite ?Hmin; reflexivity).
    reflexivity.
  - apply clip_compat. now rewrite Hmin.
Qed.

(** Swapping [lo] and [hi] (both given and not zero) does not flip the
    rendering: the image returned is the same. *)
Theorem visualize_cmap_bounds_symmetric
    (value weight : tensor) (lo hi percentile : Q) (curve_fn : Q -> Q)
    (modulus : option Q) (out : tensor) :
  ~ lo == 0 -> ~ hi == 0 ->
  visualize_cmap value weight None (Some lo) (Some hi) percentile curve_fn
    modulus false = Ok out ->
  exists out',
    visualize_cmap value weight None (Some hi) (Some lo) percentile curve_fn
      modulus false = Ok out'
    /\ tensor_eq out out'.
Proof.
  intros Hlo Hhi. unfold visualize_cmap.
  destruct (weighted_percentile _ _ _ _) as [[| a [| b [| c r]]] | e];
    cbn [bind]; try discriminate.
  unfold py_or. rewrite (truthy_nonzero Hlo), (truthy_nonzero Hhi).
  unfold check_three_channels.
  destruct (negb (length (shape value) =? 3)%nat); [discriminate |].
  destruct (negb (last (shape value) 0 =? 3)%nat); [discriminate |].
  cbn [bind]. intros [= <-]. eexists. split; [reflexivity |].
  split; [reflexivity |]. cbn [data].
  assert (Hn : Qlist_eq
                 (map (normalize (curve_fn lo) (curve_fn hi))
                      (map curve_fn (data value)))
                 (map (normalize (curve_fn hi) (curve_fn lo))
                      (map curve_fn (data value)))).
  { induction (map curve_fn (data value)) as [| x l IH]; cbn [map];
      constructor; [apply normalize_swap | exact IH]. }
  destruct modulus as [m |]; [destruct (truthy (Some m)) |];
    [apply Qlist_eq_refl | exact Hn | exact Hn].
Qed.

Lemma visualize_cmap_bounds_symmetric_witness :
  exists out out',
    visualize_cmap (mkTensor [1; 1; 3]%nat [5; 7; 9]) (mkTensor [1; 1]%nat [1])
      None (Some 6) (Some 8) 99 (fun x => x) None false = Ok out
    /\ visualize_cmap (mkTensor [1; 1; 3]%nat [5; 7; 9]) (mkTensor [1; 1]%nat [1])
         None (Some 8) (Some 6) 99 (fun x => x) None false = Ok out'
    /\ tensor_eq out out'.
Proof.
  eexists.
  assert (H : visualize_cmap (mkTensor [1; 1; 3]%nat [5; 7; 9])
                (mkTensor [1; 1]%nat [1]) None (Some 6) (Some 8) 99
                (fun x => x) None false = Ok _) by (vm_compute; reflexivity).
  destruct (@visualize_cmap_bounds_symmetric _ _ 6 8 99 (fun x => x) None _
              ltac:(discriminate) ltac:(discriminate) H) as [out' [H' E]].
  exists out'. split; [exact H |]. split; [exact H' | exact E].
Defined.

(** ** Coordinates within a cell *)

Lemma Qfloor_add_Z (q : Q) (k : Z) :
  Qfloor (q + inject_Z k) = (Qfloor q + k)%Z.
Proof.
  pose proof (Qfloor_le q) as H1. pose proof (Qlt_floor q) as H2.
  pose proof (Qfloor_le (q + inject_Z k)) as H3.
  pose proof (Qlt_floor (q + inject_Z k)) as H4.
  rewrite inject_Z_plus in H2, H4. change (inject_Z 1) with 1 in H2, H4.
  assert (A : (Qfloor q + k < Qfloor (q + inject_Z k) + 1)%Z).
  { rewrite Zlt_Qlt, !inject_Z_plus. change (inject_Z 1) with 1. lra. }
  assert (B : (Qfloor (q + inject_Z k) < Qfloor q + k + 1)%Z).
  { rewrite Zlt_Qlt, !inject_Z_plus. change (inject_Z 1) with 1. lra. }
  lia.
Qed.

Lemma coord_cell_period (x : Q) (k : Z) :
  coord_cell (x + 2 * inject_Z k) == coord_cell x.
Proof.
  unfold coord_cell, torch_mod.
  assert (E : (x + 2 * inject_Z k + 1) / 2 == (x + 1) / 2 + inject_Z k)
    by field.
  rewrite E, Qfloor_add_Z, inject_Z_plus. field.
Qed.

Lemma coord_cell_range (x : Q) : 0 <= coord_cell x /\ coord_cell x < 1.
Proof. unfold coord_cell. apply torch_mod_fraction. discriminate. Qed.

Lemma Forall2_firstn_skipn (n : nat) (l l' : list Q) :
  Qlist_eq l l' -> Qlist_eq (firstn n l) (firstn n l') /\ Qlist_eq (skipn n l) (skipn n l').
Proof.
  intros H. revert n. induction H as [| x y l l' Hxy Hl IH]; intros [| n];
    cbn [firstn skipn]; split; try constructor; try assumption;
    try apply IH.
Qed.

Lemma over_compat (c : nat) (alpha : list Q) :
  forall rgb rgb' bg,
    Qlist_eq rgb rgb' ->
    Qlist_eq (over c rgb alpha bg) (over c rgb' alpha bg).
Proof.
  induction alpha as [| a alpha IH]; intros rgb rgb' bg H; cbn [over];
    [constructor |].
  destruct bg as [| b bg]; [constructor |].
  destruct (Forall2_firstn_skipn c H) as [Hf Hs].
  apply Forall2_app; [| now apply IH].
  clear - Hf. induction Hf as [| x y l l' Hxy _ IHf]; cbn [map]; constructor;
    [now rewrite Hxy | exact IHf].
Qed.

Lemma coord_cell_compat (x y : Q) : x == y -> coord_cell x == coord_cell y.
Proof.
  intros H. unfold coord_cell, torch_mod.
  assert (E : Qfloor ((x + 1) / 2) = Qfloor ((y + 1) / 2))
    by (apply Qfloor_comp; now rewrite H).
  rewrite E, H. reflexivity.
Qed.

Lemma matte_compat (vis vis' acc : tensor) (dark light : Q) (width : nat)
    (out : tensor) :
  shape vis' = shape vis -> Qlist_eq (data vis) (data vis') ->
  matte vis acc dark light width = Ok out ->
  exists out',
    matte vis' acc dark light width = Ok out' /\ tensor_eq out out'.
Proof.
  intros Hs Hd. unfold matte. rewrite Hs.
  destruct (shape acc) as [| h [| w [| ? ?]]]; try discriminate.
  destruct (checkerboard h w dark light width) as [bg | e]; cbn [bind];
    [| discriminate].
  destruct (shape vis) as [| h' [| w' [| c [| ? ?]]]]; try discriminate.
  destruct ((h' =? h) && (w' =? w))%nat; [| discriminate].
  intros [= <-]. eexists. split; [reflexivity |].
  split; [reflexivity |]. cbn [data]. now apply over_compat.
Qed.

(** The rendering of coordinates within their cell has values in
    [[0, 1]] when the accumulation has, and it is periodic: moving any
    coordinate by an even integer leaves the image unchanged. *)
Theorem visualize_coord_mod_periodic
    (coords coords' acc : tensor) (h w c : nat) :
  shape acc = [h; w] -> shape coords = [h; w; c] ->
  Forall in_unit (data acc) ->
  shape coords' = shape coords ->
  Forall2 (fun x x' => exists k : Z, x' == x + 2 * inject_Z k)
          (data coords) (data coords') ->
  exists out out',
    visualize_coord_mod coords acc = Ok out
    /\ visualize_coord_mod coords' acc = Ok out'
    /\ Forall in_unit (data out)
    /\ tensor_eq out out'.
Proof.
  intros Hacc Hc Fa Hs Hd. unfold visualize_coord_mod.
  destruct (@matte_in_unit
              (mkTensor (shape coords) (map coord_cell (data coords))) acc
              matte_dark matte_light matte_width h w c)
    as [out [Hout Hu]]; try assumption.
  - unfold matte_width. lia.
  - split; discriminate.
  - split; discriminate.
  - apply Forall_map, Forall_forall. intros x _.
    destruct (coord_cell_range x). split; [assumption | lra].
  - destruct (@matte_compat
                (mkTensor (shape coords) (map coord_cell (data coords)))
                (mkTensor (shape coords') (map coord_cell (data coords')))
                acc matte_dark matte_light matte_width out)
      as [out' [Hout' E]]; [exact Hs | | exact Hout |].
    + cbn [data]. clear - Hd.
      induction Hd as [| x x' l l' [k Hk] _ IH]; cbn [map]; constructor;
        [| exact IH].
      rewrite (coord_cell_compat Hk). symmetry. apply coord_cell_period.
    + exists out, out'. repeat split; try assumption; apply E.
Qed.

Lemma visualize_coord_mod_periodic_witness :
  exists out out',
    visualize_coord_mod (mkTensor [1; 1; 3]%nat [-1; 0; 1 # 2])
      (mkTensor [1; 1]%nat [1]) = Ok out
    /\ visualize_coord_mod (mkTensor [1; 1; 3]%nat [1; -2; 9 # 2])
         (mkTensor [1; 1]%nat [1]) = Ok out'
    /\ Forall in_unit (data out)
    /\ tensor_eq out out'.
Proof.
  apply (@visualize_coord_mod_periodic _ _ _ 1%nat 1%nat 3%nat);
    try reflexivity.
  - repeat constructor; discriminate.
  - repeat constructor;
      [exists 1%Z | exists (-1)%Z | exists 2%Z]; reflexivity.
Defined.

(** ** Area downsampling *)

Lemma flat_map_length_const {A B : Type} (g : A -> list B) (n : nat) (l : list A) :
  (forall x, In x l -> length (g x) = n) ->
  length (flat_map g l) = (length l * n)%nat.
Proof.
  induction l as [| x l IH]; intros H; cbn [flat_map length]; [reflexivity |].
  rewrite length_app, (H x (or_introl eq_refl)), IH; [lia |].
  intros y Hy. apply H. now right.
Qed.

Lemma downsample_data_length (f h w k : nat) (d : list Q) :
  length (downsample_data f h w k d) = (h / f * (w / f * k))%nat.
Proof.
  unfold downsample_data.
  rewrite (@flat_map_length_const _ _ _ (w / f * k)%nat), length_seq;
    [reflexivity |].
  intros i _.
  rewrite (@flat_map_length_const _ _ _ k), length_seq; [reflexivity |].
  intros j _. now rewrite length_map, length_seq.
Qed.

Lemma sum_between (lo hi : Q) (l : list Q) :
  Forall (between lo hi) l ->
  inject_Z (Z.of_nat (length l)) * lo <= fold_right Qplus 0 l
  /\ fold_right Qplus 0 l <= inject_Z (Z.of_nat (length l)) * hi.
Proof.
  induction 1 as [| v l [Hv1 Hv2] _ [IH1 IH2]].
  - cbn [length fold_right]. change (inject_Z (Z.of_nat 0)) with 0.
    split; lra.
  - cbn [length fold_right]. rewrite Nat2Z.inj_succ, <- Z.add_1_r.
    rewrite inject_Z_plus. change (inject_Z 1) with 1. split; lra.
Qed.

Lemma mean_between (lo hi : Q) (l : list Q) :
  l <> [] -> Forall (between lo hi) l ->
  between lo hi (fold_right Qplus 0 l / inject_Z (Z.of_nat (length l))).
Proof.
  intros Hne H. destruct (sum_between H) as [H1 H2].
  assert (Hn : 0 < inject_Z (Z.of_nat (length l))).
  { change 0 with (inject_Z 0). rewrite <- Zlt_Qlt.
    destruct l; [contradiction | cbn [length]; lia]. }
  split.
  - apply Qle_shift_div_l; [exact Hn |]. lra.
  - apply Qle_shift_div_r; [exact Hn |]. lra.
Qed.

Lemma block_mean_between (lo hi : Q) (f h w k : nat) (d : list Q) (i j c : nat) :
  (0 < f)%nat -> length d = (h * (w * k))%nat ->
  Forall (between lo hi) d ->
  (i < h / f)%nat -> (j < w / f)%nat -> (c < k)%nat ->
  between lo hi (block_mean f w k d i j c).
Proof.
  intros Hf Hlen Hd Hi Hj Hc. unfold block_mean.
  set (blk := flat_map _ (seq 0 f)).
  assert (Lb : length blk = (f * f)%nat).
  { unfold blk. rewrite (@flat_map_length_const _ _ _ f), length_seq;
      [reflexivity |].
    intros a _. now rewrite length_map, length_seq. }
  rewrite <- Lb. apply mean_between.
  - intros E. rewrite E in Lb. cbn in Lb. nia.
  - unfold blk. apply Forall_flat_map, Forall_forall. intros a Ha.
    apply in_seq in Ha. apply Forall_map, Forall_forall. intros b Hb.
    apply in_seq in Hb. rewrite Forall_forall in Hd. apply Hd, nth_In.
    rewrite Hlen.
    pose proof (Nat.Div0.mul_div_le h f) as Dh.
    pose proof (Nat.Div0.mul_div_le w f) as Dw.
    assert (R : (i * f + a < h)%nat) by nia.
    assert (C : (j * f + b < w)%nat) by nia.
    set (row := (i * f + a)%nat) in *. set (col := (j * f + b)%nat) in *.
    assert (P : (row * w + col < h * w)%nat) by nia.
    set (px := (row * w + col)%nat) in *.
    assert (Q1 : (px * k + c < (px + 1) * k)%nat) by nia.
    assert (Q2 : ((px + 1) * k <= h * w * k)%nat)
      by (apply Nat.mul_le_mono_r; lia).
    lia.
Qed.

Lemma mod_zero_nat (n : nat) (factor : Z) :
  (0 < factor)%Z ->
  (Z.of_nat n mod factor = 0)%Z -> (n mod Z.to_nat factor = 0)%nat.
Proof.
  intros Hf H. apply Nat2Z.inj.
  rewrite Nat2Z.inj_mod, Z2Nat.id by lia. exact H.
Qed.

(** [downsample] returns exactly for a positive factor that divides the
    height and the width; it raises [ZeroDivisionError] for a factor of
    0, [ValueError] for a positive factor that does not divide both, and
    never returns for a negative factor. *)
Theorem downsample_returns_iff (img : tensor) (factor : Z) (h w : nat)
    (rest : list nat) :
  shape img = h :: w :: rest ->
  ((exists out, downsample img factor = Returns out)
   <-> (0 < factor)%Z /\ (Z.of_nat h mod factor = 0)%Z
       /\ (Z.of_nat w mod factor = 0)%Z)
  /\ (factor = 0%Z -> downsample img factor = RaisesZeroDivision)
  /\ ((0 < factor)%Z ->
      (Z.of_nat h mod factor <> 0)%Z \/ (Z.of_nat w mod factor <> 0)%Z ->
      downsample img factor = Raises ValueError).
Proof.
  intros Hs. unfold downsample. rewrite Hs.
  destruct (factor =? 0)%Z eqn:E0;
    [apply Z.eqb_eq in E0 | apply Z.eqb_neq in E0];
    (destruct (Z.of_nat h mod factor =? 0)%Z eqn:Eh;
       [apply Z.eqb_eq in Eh | apply Z.eqb_neq in Eh]);
    (destruct (Z.of_nat w mod factor =? 0)%Z eqn:Ew;
       [apply Z.eqb_eq in Ew | apply Z.eqb_neq in Ew]);
    (destruct (factor <? 0)%Z eqn:En;
       [apply Z.ltb_lt in En | apply Z.ltb_ge in En]);
    cbn [negb];
    repeat split; intros;
    repeat match goal with
           | H : exists _, _ |- _ => destruct H
           | H : _ /\ _ |- _ => destruct H
           | H : _ \/ _ |- _ => destruct H
           end;
    try discriminate; try lia; try reflexivity;
    try (eexists; reflexivity).
Qed.

Lemma downsample_returns_iff_witness :
  (exists out, downsample (mkTensor [2; 4]%nat [1; 2; 3; 4; 5; 6; 7; 8]) 2
               = Returns out)
  /\ downsample (mkTensor [2; 4]%nat [1; 2; 3; 4; 5; 6; 7; 8]) 3
     = Raises ValueError.
Proof.
  split.
  - apply (proj1 (@downsample_returns_iff
                    (mkTensor [2; 4]%nat [1; 2; 3; 4; 5; 6; 7; 8]) 2 2 4 []
                    eq_refl)).
    repeat split; try lia; reflexivity.
  - apply (proj2 (proj2 (@downsample_returns_iff
                    (mkTensor [2; 4]%nat [1; 2; 3; 4; 5; 6; 7; 8]) 3 2 4 []
                    eq_refl))); [lia |].
    left. discriminate.
Defined.

(** A downsampled image has the height and width divided by the factor,
    the other dimensions kept, and every mean lies between any two bounds
    that hold for all elements of the input. *)
Theorem downsample_shape_and_range (img : tensor) (factor : Z) (h w : nat)
    (rest : list nat) (lo hi : Q) :
  shape img = h :: w :: rest -> wf_tensor img ->
  (0 < factor)%Z -> (Z.of_nat h mod factor = 0)%Z ->
  (Z.of_nat w mod factor = 0)%Z ->
  Forall (between lo hi) (data img) ->
  exists out,
    downsample img factor = Returns out
    /\ shape out = (h / Z.to_nat factor)%nat :: (w / Z.to_nat factor)%nat :: rest
    /\ wf_tensor out
    /\ Forall (between lo hi) (data out).
Proof.
  intros Hs Hwf Hf Hh Hw Hd. unfold downsample. rewrite Hs.
  destruct (factor =? 0)%Z eqn:E0; [apply Z.eqb_eq in E0; lia |].
  rewrite Hh, Hw. cbn [Z.eqb negb].
  destruct (factor <? 0)%Z eqn:En; [apply Z.ltb_lt in En; lia |].
  eexists. split; [reflexivity |]. cbn [shape data].
  split; [reflexivity |]. split.
  - unfold wf_tensor. cbn [shape data numel fold_right].
    now rewrite downsample_data_length.
  - assert (Hlen : length (data img) = (h * (w * numel rest))%nat).
    { unfold wf_tensor in Hwf. rewrite Hwf, Hs. reflexivity. }
    unfold downsample_data.
    apply Forall_flat_map, Forall_forall. intros i Hi. apply in_seq in Hi.
    apply Forall_flat_map, Forall_forall. intros j Hj. apply in_seq in Hj.
    apply Forall_map, Forall_forall. intros c Hc. apply in_seq in Hc.
    apply (@block_mean_between lo hi _ h); try assumption; lia.
Qed.

Lemma downsample_shape_and_range_witness :
  exists out,
    downsample (mkTensor [2; 4; 1]%nat [1; 2; 3; 4; 5; 6; 7; 8]) 2 = Returns out
    /\ shape out = [1; 2; 1]%nat
    /\ Forall (between 1 8) (data out).
Proof.
  destruct (@downsample_shape_and_range
              (mkTensor [2; 4; 1]%nat [1; 2; 3; 4; 5; 6; 7; 8]) 2 2 4 [1%nat]
              1 8 eq_refl eq_refl eq_refl eq_refl eq_refl)
    as [out [H [Hs [_ Hr]]]].
  - repeat constructor; discriminate.
  - exists out. split; [exact H |]. split; [exact Hs | exact Hr].
Defined.

Lemma map_seq_from {B : Type} (g : nat -> B) (n : nat) :
  forall s, map g (seq s n) = map (fun j => g (s + j)%nat) (seq 0 n).
Proof.
  induction n as [| n IH]; intros s; [reflexivity |].
  cbn [seq map]. rewrite Nat.add_0_r. f_equal.
  rewrite (IH (S s)), <- seq_shift, map_map. apply map_ext. intros j.
  f_equal. lia.
Qed.

(** Row-major enumeration: listing [g] row by row is listing it along the
    flat index. *)
Lemma row_major_enumeration {B : Type} (g : nat -> B) (n m : nat) :
  flat_map (fun i => map (fun j => g (i * n + j)%nat) (seq 0 n)) (seq 0 m)
  = map g (seq 0 (m * n)).
Proof.
  induction m as [| m IH]; [reflexivity |].
  rewrite seq_S, flat_map_app, IH. cbn [flat_map Nat.add].
  rewrite app_nil_r.
  replace (S m * n)%nat with (m * n + n)%nat by lia.
  rewrite seq_app, map_app. f_equal.
  cbn [Nat.add]. now rewrite (map_seq_from g n (m * n)).
Qed.

Lemma Qlist_eq_flat_map (f g : nat -> list Q) (l : list nat) :
  (forall x, In x l -> Qlist_eq (f x) (g x)) ->
  Qlist_eq (flat_map f l) (flat_map g l).
Proof.
  induction l as [| x l IH]; intros H; cbn [flat_map]; [constructor |].
  apply Forall2_app; [apply H; now left |].
  apply IH. intros y Hy. apply H. now right.
Qed.

Lemma block_mean_one (w k : nat) (d : list Q) (i j c : nat) :
  block_mean 1 w k d i j c == nth ((i * w + j) * k + c) d 0.
Proof.
  unfold block_mean. cbn [seq flat_map map app fold_right].
  rewrite !Nat.mul_1_r, !Nat.add_0_r.
  change (inject_Z (Z.of_nat 1)) with 1. field.
Qed.

(** Downsampling by a factor of 1 returns the image. *)
Theorem downsample_by_one (img : tensor) (h w : nat) (rest : list nat) :
  shape img = h :: w :: rest -> wf_tensor img ->
  exists out, downsample img 1 = Returns out /\ tensor_eq out img.
Proof.
  intros Hs Hwf. unfold downsample. rewrite Hs.
  rewrite !Z.mod_1_r. cbn [Z.eqb negb Z.ltb Z.compare].
  eexists. split; [reflexivity |].
  change (Z.to_nat 1) with 1%nat. rewrite !Nat.div_1_r.
  split; [cbn [shape]; now rewrite Hs |]. cbn [data].
  set (k := numel rest). set (d := data img).
  assert (Hlen : length d = (h * (w * k))%nat).
  { unfold wf_tensor in Hwf. unfold d, k. rewrite Hwf, Hs. reflexivity. }
  assert (E : flat_map
                (fun i => flat_map
                   (fun j => map (fun c => nth ((i * w + j) * k + c) d 0)
                                 (seq 0 k))
                   (seq 0 w))
                (seq 0 h) = d).
  { erewrite flat_map_ext.
    2:{ intros i.
        erewrite flat_map_ext.
        2:{ intros j. apply map_ext. intros c.
            replace ((i * w + j) * k + c)%nat
              with (i * (w * k) + (j * k + c))%nat by lia.
            reflexivity. }
        apply (row_major_enumeration
                 (fun t => nth (i * (w * k) + t) d 0) k w). }
    rewrite (row_major_enumeration (fun t => nth t d 0) (w * k) h).
    rewrite <- Hlen. symmetry. apply list_as_map_nth. }
  assert (Hq : Qlist_eq (downsample_data 1 h w k d)
                 (flat_map
                    (fun i => flat_map
                       (fun j => map (fun c => nth ((i * w + j) * k + c) d 0)
                                     (seq 0 k))
                       (seq 0 w))
                    (seq 0 h))).
  { unfold downsample_data. rewrite !Nat.div_1_r.
    apply Qlist_eq_flat_map. intros i _.
    apply Qlist_eq_flat_map. intros j _.
    apply Forall2_map_same. intros c _. apply block_mean_one. }
  rewrite E in Hq. exact Hq.
Qed.

Lemma downsample_by_one_witness :
  exists out,
    downsample (mkTensor [2; 2; 1]%nat [1; 2; 3; 4]) 1 = Returns out
    /\ tensor_eq out (mkTensor [2; 2; 1]%nat [1; 2; 3; 4]).
Proof.
  apply (@downsample_by_one (mkTensor [2; 2; 1]%nat [1; 2; 3; 4]) 2 2 [1%nat]);
    reflexivity.
Defined.

(** ** More on colour correction *)

Lemma last_dim_wf_divides (t : tensor) (c : nat) :
  wf_tensor t -> last_dim t = Ok c -> (0 < c)%nat ->
  reshape_rows t c = Ok (chunks c (length (data t) / c) (data t))
  /\ length (data t) = (length (data t) / c * c)%nat.
Proof.
  intros Hwf Hc Hpos. pose proof (last_dim_divides Hwf Hc) as Hmod.
  split; [now apply reshape_rows_ok |].
  pose proof (Nat.div_mod_eq (length (data t)) c). lia.
Qed.

(** With no iteration at all [color_correct] hands the image back as it
    is, values outside [[0, 1]] included: the clip belongs to the loop
    body. *)
Theorem color_correct_zero_iterations
    (lstsq : matrix -> list Q -> list Q) (eps : Q) (img ref : tensor) (c : nat) :
  wf_tensor img -> wf_tensor ref ->
  last_dim img = Ok c -> last_dim ref = Ok c -> (0 < c)%nat ->
  color_correct lstsq eps img ref 0 = Ok img.
Proof.
  intros Wi Wr Hi Hr Hc. unfold color_correct. rewrite Hi, Hr.
  cbn [bind]. rewrite Nat.eqb_refl. cbn [negb].
  destruct (last_dim_wf_divides Wi Hi Hc) as [-> Hlen].
  destruct (last_dim_wf_divides Wr Hr Hc) as [-> _].
  cbn [bind correct_loop]. rewrite (concat_chunks _ _ _ Hlen).
  now destruct img.
Qed.

Lemma color_correct_zero_iterations_witness :
  color_correct (fun _ _ => []) color_correct_eps
    (mkTensor [1; 2]%nat [3; -1]) (mkTensor [2; 2]%nat [1; 1; 1; 1]) 0
  = Ok (mkTensor [1; 2]%nat [3; -1]).
Proof.
  apply (@color_correct_zero_iterations _ _ _ _ 2%nat); try reflexivity. lia.
Defined.

Lemma sum_descending (n c : nat) :
  (c <= n)%nat ->
  (2 * list_sum (map (Nat.sub n) (seq 0 c)) = c * (2 * n + 1 - c))%nat.
Proof.
  induction c as [| c IH]; intros H; [reflexivity |].
  rewrite seq_S, map_app, list_sum_app. cbn [map list_sum Nat.add].
  specialize (IH ltac:(lia)).
  assert (E : exists d, n = (c + S d)%nat) by (exists (n - c - 1)%nat; lia).
  destruct E as [d ->].
  generalize dependent (list_sum (map (Nat.sub (c + S d)) (seq 0 c))).
  intros s IH.
  replace (2 * (c + S d) + 1 - c)%nat with (c + 2 * d + 3)%nat in IH by lia.
  replace (2 * (c + S d) + 1 - S c)%nat with (c + 2 * d + 2)%nat by lia.
  replace (c + S d - c)%nat with (S d) by lia.
  change (list_sum [S d]) with (S d + 0)%nat. nia.
Qed.

(** The feature expansion of a pixel with [c] channels has
    [c (c + 1) / 2] quadratic terms, [c] linear terms and the bias:
    [c (c + 3) / 2 + 1] columns, 10 for RGB. *)
Theorem feature_row_length (row : list Q) :
  (2 * length (feature_row row) = length row * (length row + 3) + 2)%nat
  /\ length (feature_row row) = num_features (length row).
Proof.
  assert (H : forall r : list Q,
             (2 * length (feature_row r) = length r * (length r + 3) + 2)%nat).
  { intros r. unfold feature_row. rewrite !length_app, length_flat_map.
    cbn [length].
    erewrite map_ext.
    2:{ intros k. rewrite length_map, length_skipn. reflexivity. }
    pose proof (@sum_descending (length r) (length r) (le_n _)) as S.
    replace (2 * length r + 1 - length r)%nat with (length r + 1)%nat in S
      by lia.
    revert S.
    generalize (list_sum (map (Nat.sub (length r)) (seq 0 (length r)))).
    intros s S. nia. }
  split; [apply H |].
  unfold num_features.
  pose proof (H row) as H1. pose proof (H (repeat 0 (length row))) as H2.
  rewrite repeat_length in H2. lia.
Qed.

(** An image and a reference with different numbers of pixels, neither of
    them a single pixel, cannot be broadcast against each other: the first
    iteration raises. *)
Theorem color_correct_pixel_count_mismatch
    (lstsq : matrix -> list Q -> list Q) (eps : Q) (img ref : tensor)
    (num_iters c : nat) :
  wf_tensor img -> wf_tensor ref ->
  last_dim img = Ok c -> last_dim ref = Ok c -> (0 < c)%nat ->
  (0 < num_iters)%nat ->
  length (data img) <> length (data ref) ->
  length (data img) <> c -> length (data ref) <> c ->
  color_correct lstsq eps img ref num_iters = Err RuntimeError.
Proof.
  intros Wi Wr Hi Hr Hc Hn Hne Hi1 Hr1. unfold color_correct.
  rewrite Hi, Hr. cbn [bind]. rewrite Nat.eqb_refl. cbn [negb].
  destruct (last_dim_wf_divides Wi Hi Hc) as [-> Li].
  destruct (last_dim_wf_divides Wr Hr Hc) as [-> Lr].
  cbn [bind].
  set (n := (length (data img) / c)%nat) in *.
  set (m := (length (data ref) / c)%nat) in *.
  set (img_mat := chunks c n (data img)).
  set (ref_mat := chunks c m (data ref)).
  assert (Hnm : n <> m) by (intros E; rewrite E in Li; lia).
  assert (Hn1 : n <> 1%nat) by (intros E; rewrite E in Li; lia).
  assert (Hm1 : m <> 1%nat) by (intros E; rewrite E in Lr; lia).
  destruct num_iters as [| k]; [lia |]. cbn [correct_loop].
  unfold correct_once. destruct c as [| c']; [lia |]. cbn [seq mapM].
  unfold solve_channel at 1.
  rewrite broadcast2_same
    by (unfold column; now rewrite !length_map).
  cbn [bind].
  set (m1 := map2 andb _ _).
  assert (L1 : length m1 = n).
  { unfold m1, column. rewrite map2_length; rewrite !length_map;
      unfold img_mat; now rewrite chunks_length. }
  set (ub := map (is_unclipped eps) (column 0 0 ref_mat)).
  assert (L2 : length ub = m)
    by (unfold ub, column, ref_mat; now rewrite !length_map, chunks_length).
  assert (Hb : broadcast2 andb m1 ub = Err RuntimeError).
  { unfold broadcast2. rewrite L1, L2.
    destruct (n =? m)%nat eqn:E; [apply Nat.eqb_eq in E; contradiction |].
    destruct m1 as [| x [| x' m1]]; cbn [length] in L1;
      [| congruence |];
      (destruct ub as [| y [| y' ub]]; cbn [length] in L2;
         [reflexivity | congruence | reflexivity]). }
  rewrite Hb. reflexivity.
Qed.

Lemma color_correct_pixel_count_mismatch_witness :
  color_correct (fun _ _ => [0; 1; 0]) color_correct_eps
    (mkTensor [2; 1]%nat [1 # 2; 1 # 3])
    (mkTensor [3; 1]%nat [1 # 2; 1 # 3; 1 # 4]) 5
  = Err RuntimeError.
Proof.
  apply (@color_correct_pixel_count_mismatch _ _ _ _ 5%nat 1%nat);
    try reflexivity; try lia; discriminate.
Defined.

(** ** More on ray bundles *)

(** When there are fewer rays than [resolution] but [resolution] does not
    exceed [rays * levels], the repeat count [rep] is 0, the tiled arrays
    are empty and the regrouping by a stride of 0 cannot be inferred: the
    call raises. *)
Theorem visualize_rays_zero_repeat
    (vis_rgb vis_alpha : tensor) (resolution : nat) (bg_color : Q)
    (rays levels res channels : nat) :
  shape vis_rgb = [rays; levels; res; channels] ->
  (rays < resolution)%nat -> (resolution <= rays * levels)%nat ->
  visualize_rays vis_rgb vis_alpha resolution bg_color = Err RuntimeError.
Proof.
  intros Hs Hlo Hhi. unfold visualize_rays. rewrite Hs.
  apply Nat.ltb_lt in Hlo. rewrite Hlo.
  rewrite (Nat.div_small resolution (rays * levels + 1)) by lia.
  unfold tile_and_pad at 1. rewrite Hs.
  unfold tile_blocks.
  assert (E : forall n l,
             flat_map (fun b : list Q => concat (repeat b 0))
                      (chunks (numel [res; channels]) n l) = []).
  { induction n as [| n IH]; intros l; cbn [chunks flat_map];
      [reflexivity | now rewrite IH]. }
  rewrite E. cbn [length Nat.mul].
  unfold reshape_infer at 1.
  destruct (numel [res; channels] =? 0)%nat; [reflexivity |].
  rewrite Nat.Div0.mod_0_l. cbn [Nat.eqb bind tl].
  unfold reshape_infer at 1. cbn [numel fold_right Nat.mul Nat.eqb].
  reflexivity.
Qed.

Lemma visualize_rays_zero_repeat_witness :
  visualize_rays
    (mkTensor [2; 3; 1; 1]%nat [1; 1; 1; 1; 1; 1])
    (mkTensor [2; 3; 1]%nat [1; 1; 1; 1; 1; 1]) 5 (8 # 10)
  = Err RuntimeError.
Proof.
  apply (@visualize_rays_zero_repeat _ _ _ _ 2%nat 3%nat 1%nat 1%nat);
    [reflexivity | lia | lia].
Defined.

Lemma tile_and_pad_forall (P : Q -> Prop) (rep stride : nat) (t t' : tensor) :
  P 0 -> Forall P (data t) -> tile_and_pad rep stride t = Ok t' ->
  Forall P (data t').
Proof.
  intros H0 Hd. unfold tile_and_pad.
  destruct (shape t) as [| d0 [| d1 [| d2 rest]]]; try discriminate.
  destruct (reshape_infer _ (d2 :: rest)) as [sh1 | e]; cbn [bind];
    [| discriminate].
  destruct (reshape_infer _ (stride :: tl sh1)) as [sh2 | e]; cbn [bind];
    [| discriminate].
  destruct (reshape_infer _ (d2 :: rest)) as [sh3 | e]; cbn [bind];
    [| discriminate].
  intros [= <-]. cbn [data]. unfold pad_groups.
  apply Forall_flat_map.
  assert (Ht : Forall P (tile_blocks (numel (d2 :: rest)) rep (d0 * d1) (data t))).
  { unfold tile_blocks. apply Forall_flat_map.
    eapply Forall_impl; [| apply (@chunks_forall P _ _ _ Hd)].
    intros b Hb. apply Forall_concat, Forall_forall.
    intros b' Hin. apply repeat_spec in Hin. now subst b'. }
  eapply Forall_impl; [| apply (@chunks_forall P _ _ _ Ht)].
  intros g Hg. apply Forall_app. split; [exact Hg |].
  apply Forall_forall. intros v Hv. apply repeat_spec in Hv. now subst v.
Qed.

Lemma firstn_forall (P : Q -> Prop) (n : nat) (l : list Q) :
  Forall P l -> Forall P (firstn n l).
Proof.
  intros H. rewrite <- (firstn_skipn n l) in H. now apply Forall_app in H.
Qed.

(** Tiling only repeats values and pads with zeros, and compositing is a
    convex combination: colours, weights and background in [[0, 1]] give
    returned arrays in [[0, 1]]. *)
Theorem visualize_rays_keeps_unit_interval
    (vis_rgb vis_alpha : tensor) (resolution : nat) (bg_color : Q)
    (vis va : tensor) :
  visualize_rays vis_rgb vis_alpha resolution bg_color = Ok (vis, va) ->
  in_unit bg_color ->
  Forall in_unit (data vis_rgb) -> Forall in_unit (data vis_alpha) ->
  Forall in_unit (data vis) /\ Forall in_unit (data va).
Proof.
  intros H Hbg Hr Ha. unfold visualize_rays in H.
  destruct (shape vis_rgb) as [| d0 [| d1 sh]]; try discriminate.
  assert (H0 : in_unit 0) by (split; discriminate).
  assert (Hst : exists rgb2 alpha2,
            Forall in_unit (data rgb2) /\ Forall in_unit (data alpha2)
            /\ (vis0 <- composite_rays rgb2 alpha2 bg_color ;;
                vis1 <- drop_last_row vis0 ;;
                va1 <- drop_last_row alpha2 ;;
                Ok (vis1, va1)) = Ok (vis, va)).
  { destruct (d0 <? resolution)%nat.
    - destruct (tile_and_pad _ _ vis_rgb) as [rgb2 | e] eqn:E1;
        cbn [bind] in H; [| discriminate].
      destruct (tile_and_pad _ _ vis_alpha) as [alpha2 | e] eqn:E2;
        cbn [bind] in H; [| discriminate].
      exists rgb2, alpha2. split; [| split; [| exact H]].
      + exact (@tile_and_pad_forall in_unit _ _ _ _ H0 Hr E1).
      + exact (@tile_and_pad_forall in_unit _ _ _ _ H0 Ha E2).
    - cbn [bind] in H. exists vis_rgb, vis_alpha. auto. }
  destruct Hst as [rgb2 [alpha2 [Fr [Fa Hc]]]]. clear H.
  unfold composite_rays in Hc.
  destruct (rev (shape rgb2)) as [| c lead]; [discriminate |].
  destruct (list_eq_dec Nat.eq_dec (rev lead) (shape alpha2));
    [| discriminate].
  cbn [bind] in Hc. unfold drop_last_row in Hc. cbn [shape data] in Hc.
  destruct (shape rgb2) as [| r0 rsh]; [discriminate |].
  destruct (shape alpha2) as [| a0 ash]; [discriminate |].
  cbn [bind] in Hc. injection Hc as <- <-. cbn [data]. split.
  - apply firstn_forall, over_in_unit; [exact Fr | exact Fa |].
    apply Forall_map, Forall_forall. intros _ _. exact Hbg.
  - now apply firstn_forall.
Qed.

Lemma visualize_rays_keeps_unit_interval_witness :
  exists vis va,
    visualize_rays
      (mkTensor [3; 1; 2; 1]%nat [1; 1 # 2; 1; 1; 1 # 4; 1 # 4])
      (mkTensor [3; 1; 2]%nat [1; 1 # 2; 1; 1; 1 # 3; 1 # 3]) 4 (8 # 10)
    = Ok (vis, va)
    /\ Forall in_unit (data vis) /\ Forall in_unit (data va).
Proof.
  eexists. eexists.
  assert (H : visualize_rays
                (mkTensor [3; 1; 2; 1]%nat [1; 1 # 2; 1; 1; 1 # 4; 1 # 4])
                (mkTensor [3; 1; 2]%nat [1; 1 # 2; 1; 1; 1 # 3; 1 # 3]) 4
                (8 # 10) = Ok (_, _)) by (vm_compute; reflexivity).
  split; [exact H |].
  apply (@visualize_rays_keeps_unit_interval _ _ _ _ _ _ H).
  - split; discriminate.
  - repeat constructor; discriminate.
  - repeat constructor; discriminate.
Defined.

(** ** Frame file names *)

Section VideoNameFacts.
Import String Ascii VideoNames.
Local Open Scope string_scope.

Lemma to_uint_nonnil (n : nat) : Nat.to_uint n <> Decimal.Nil.
Proof.
  intros E. pose proof (DecimalNat.Unsigned.of_to n) as H. rewrite E in H.
  cbn in H. subst n. discriminate E.
Qed.

Lemma string_of_uint_nonnil (d : Decimal.uint) :
  d <> Decimal.Nil ->
  DecimalString.NilZero.string_of_uint d
  = DecimalString.NilEmpty.string_of_uint d.
Proof. destruct d; [contradiction | reflexivity ..]. Qed.

Lemma string_of_uint_length (d : Decimal.uint) :
  String.length (DecimalString.NilEmpty.string_of_uint d)
  = Decimal.nb_digits d.
Proof. induction d; cbn; congruence. Qed.

Lemma py_str_length (n : nat) :
  String.length (py_str n)
  = Decimal.nb_digits (DecimalNat.Unsigned.to_lu n).
Proof.
  unfold py_str.
  rewrite (string_of_uint_nonnil (to_uint_nonnil n)).
  rewrite string_of_uint_length, DecimalNat.Unsigned.to_uint_alt.
  rewrite !DecimalFacts.nb_digits_spec, DecimalFacts.rev_spec.
  apply List.length_rev.
Qed.

Lemma succ_digits (d : Decimal.uint) :
  (Decimal.nb_digits d <= Decimal.nb_digits (Decimal.Little.succ d))%nat.
Proof. induction d; cbn; lia. Qed.

Lemma digits_monotone (i j : nat) :
  (i <= j)%nat ->
  (Decimal.nb_digits (DecimalNat.Unsigned.to_lu i)
   <= Decimal.nb_digits (DecimalNat.Unsigned.to_lu j))%nat.
Proof.
  induction 1 as [| j _ IH]; [lia |].
  rewrite DecimalNat.Unsigned.to_lu_succ.
  pose proof (succ_digits (DecimalNat.Unsigned.to_lu j)). lia.
Qed.

Lemma append_length (s t : string) :
  String.length (s ++ t) = (String.length s + String.length t)%nat.
Proof. induction s as [| c s IH]; cbn; congruence. Qed.

Lemma zeros_length (k : nat) : String.length (zeros k) = k.
Proof. induction k; cbn; congruence. Qed.

Lemma zfill_length (width : nat) (s : string) :
  String.length (zfill width s) = Nat.max width (String.length s).
Proof.
  unfold zfill. rewrite append_length, zeros_length. lia.
Qed.

(** Every frame that [create_videos] reads, [idx] in [range(num_frames)],
    has an index string of exactly [zpad] characters, and [zpad] is at
    least three: the names of one video's frames all have the same
    length. *)
Theorem idx_to_str_fixed_width (num_frames : Z) (idx : nat) :
  (Z.of_nat idx < num_frames)%Z ->
  String.length (idx_to_str num_frames idx) = zpad num_frames
  /\ (3 <= zpad num_frames)%nat.
Proof.
  intros H. unfold idx_to_str. rewrite zfill_length. unfold zpad.
  replace (num_frames - 1)%Z with (Z.of_nat (Z.to_nat (num_frames - 1)))
    by lia.
  set (m := Z.to_nat (num_frames - 1)).
  assert (Hm : (idx <= m)%nat) by lia.
  assert (E : py_str_int (Z.of_nat m) = py_str m).
  { unfold py_str_int. rewrite Nat2Z.id. now destruct (Z.of_nat m) eqn:Z0; [| | lia]. }
  rewrite E, !py_str_length.
  pose proof (digits_monotone Hm). lia.
Qed.

Lemma idx_to_str_fixed_width_witness :
  String.length (idx_to_str 120 7) = zpad 120 /\ (3 <= zpad 120)%nat.
Proof.
  apply idx_to_str_fixed_width. reflexivity.
Defined.

Lemma zeros_prefix (k : nat) (d : Decimal.uint) :
  zeros k ++ DecimalString.NilEmpty.string_of_uint d
  = DecimalString.NilEmpty.string_of_uint (Nat.iter k Decimal.D0 d).
Proof. induction k as [| k IH]; cbn; [reflexivity | now rewrite IH]. Qed.

Lemma of_uint_leading_zeros (k : nat) (d : Decimal.uint) :
  Nat.of_uint (Nat.iter k Decimal.D0 d) = Nat.of_uint d.
Proof. induction k as [| k IH]; [reflexivity | exact IH]. Qed.

(** Reading an index string as a decimal number gives the index back,
    whatever the padding. *)
Lemma idx_to_str_decodes (num_frames : Z) (idx : nat) :
  option_map Nat.of_uint
    (DecimalString.NilZero.uint_of_string (idx_to_str num_frames idx))
  = Some idx.
Proof.
  unfold idx_to_str, zfill, py_str.
  pose proof (to_uint_nonnil idx) as Hn.
  set (k := (zpad num_frames - _)%nat).
  rewrite (string_of_uint_nonnil Hn), zeros_prefix.
  set (d := Nat.iter k Decimal.D0 (Nat.to_uint idx)).
  assert (Hd : d <> Decimal.Nil).
  { unfold d. destruct k; [exact Hn | discriminate]. }
  rewrite <- (string_of_uint_nonnil Hd), (DecimalString.NilZero.usu d Hd).
  cbn [option_map]. unfold d. rewrite of_uint_leading_zeros. f_equal.
  apply DecimalNat.Unsigned.of_to.
Qed.

Lemma append_cancel_l (p s t : string) : p ++ s = p ++ t -> s = t.
Proof.
  induction p as [| c p IH]; cbn; intros H; [exact H |].
  injection H as H. auto.
Qed.

Lemma append_cancel_r (s t q : string) :
  String.length s = String.length t -> s ++ q = t ++ q -> s = t.
Proof.
  revert t. induction s as [| c s IH]; intros [| c' t] L H;
    try discriminate L; [reflexivity |].
  cbn in H. injection H as Hc H. injection L as L.
  f_equal; auto.
Qed.

(** Two different frames of one video never share a file name: the frame
    loop reads [num_frames] distinct files per image kind. *)
Theorem frame_name_distinct (num_frames : Z) (k file_ext : string)
    (i j : nat) :
  i <> j ->
  frame_name num_frames k i file_ext <> frame_name num_frames k j file_ext.
Proof.
  intros Hij H. apply Hij. unfold frame_name in H.
  apply append_cancel_l in H. apply (append_cancel_l "_") in H.
  assert (L : String.length (idx_to_str num_frames i)
              = String.length (idx_to_str num_frames j)).
  { apply (f_equal String.length) in H. rewrite !append_length in H. lia. }
  apply (@append_cancel_r _ _ _ L) in H.
  pose proof (idx_to_str_decodes num_frames i) as Di.
  rewrite H, idx_to_str_decodes in Di. now injection Di.
Qed.

Lemma frame_name_distinct_witness :
  frame_name 1200 "color" 99 "png" <> frame_name 1200 "color" 100 "png".
Proof.
  apply frame_name_distinct. discriminate.
Defined.

End VideoNameFacts.
